(** * webflow-multilingual: the localization engine of
      [dist/webflow-multilingual.js], embedded and verified.

    JavaScript strings are modelled as [string]: one character stands for one
    UTF-16 code unit, so [String.length] is the script's [.length].  The
    browser objects the script talks to (location, navigator, localStorage,
    console, the text nodes and the elements of the document) are explicit
    components of a [World]; the variables of the script's closure
    ([isStorageEnabled], [currentLang], [globalDict]) form a [Module]. *)

From Stdlib Require Import String Ascii List Bool Arith Lia.
Import ListNotations.
Open Scope string_scope.
Open Scope list_scope.

(** ** Constants (lines 8-9) *)

Definition DEFAULT_LANG : string := "ca".
Definition LANG_STORAGE_KEY : string := "lang".

(** ** Characters and strings *)

(** The character class [[a-z]]. *)
Definition isLower (c : ascii) : bool :=
  Nat.leb 97 (nat_of_ascii c) && Nat.leb (nat_of_ascii c) 122.

(** The character class [[^\[]]. *)
Definition notBracket (c : ascii) : bool := negb (Ascii.eqb c "[").

(** A string matching [^[a-z]{2}$]. *)
Definition isLangCode (s : string) : bool :=
  match s with
  | String a (String b EmptyString) => isLower a && isLower b
  | _ => false
  end.

Definition isEmpty (s : string) : bool :=
  match s with EmptyString => true | String _ _ => false end.

(** [s.substring(n)]: the string without its first [n] characters. *)
Fixpoint drop (n : nat) (s : string) : string :=
  match n, s with
  | 0, _ => s
  | S _, EmptyString => EmptyString
  | S k, String _ tl => drop k tl
  end.

(** [s.substr(0, n)] and [s.substring(0, n)]. *)
Fixpoint take (n : nat) (s : string) : string :=
  match n, s with
  | 0, _ => EmptyString
  | S _, EmptyString => EmptyString
  | S k, String c tl => String c (take k tl)
  end.

(** The longest prefix made of characters other than an opening bracket:
    what the greedy [[^\[]+] consumes. *)
Fixpoint takeNotBracket (s : string) : string :=
  match s with
  | EmptyString => EmptyString
  | String c tl => if notBracket c then String c (takeNotBracket tl) else EmptyString
  end.

(** [s.startsWith(p)]. *)
Fixpoint startsWith (p s : string) : bool :=
  match p, s with
  | EmptyString, _ => true
  | String _ _, EmptyString => false
  | String a p', String b s' => Ascii.eqb a b && startsWith p' s'
  end.

(** The one-character string made of a double quote. *)
Definition dquote : string := String (ascii_of_nat 34) EmptyString.

(** The text [[[xx]]] of a tag with code [xx]. *)
Definition tag (code : string) : string := "[[" ++ code ++ "]]".

(** ** LANG_REG_EXP (line 12): [/\[\[([a-z]{2})\]\]([^\[]+)/g] *)

(** A successful match: [index] is [match.index], [code] is [match[1]],
    [text] is [match[2]]. *)
Record Match := mkMatch { index : nat; code : string; text : string }.

(** The end of a match, which [exec] stores in [lastIndex]. *)
Definition matchEnd (m : Match) : nat :=
  index m + 6 + String.length (text m).

(** One attempt of the pattern at the head of [s], which sits at position
    [i] of the subject.  The pattern has no alternative and nothing follows
    its greedy last group, so an attempt never backtracks. *)
Definition matchHere (i : nat) (s : string) : option Match :=
  match s with
  | String c0 (String c1 (String a (String b (String c4 (String c5 tl))))) =>
      if Ascii.eqb c0 "[" && Ascii.eqb c1 "[" && isLower a && isLower b
         && Ascii.eqb c4 "]" && Ascii.eqb c5 "]"
      then
        let txt := takeNotBracket tl in
        if isEmpty txt then None
        else Some (mkMatch i (String a (String b EmptyString)) txt)
      else None
  | _ => None
  end.

(** The leftmost position from [i] on at which the pattern matches; [s] is
    the subject from position [i]. *)
Fixpoint firstMatch (i : nat) (s : string) : option Match :=
  match matchHere i s with
  | Some m => Some m
  | None =>
      match s with
      | EmptyString => None
      | String _ tl => firstMatch (S i) tl
      end
  end.

(** [LANG_REG_EXP.exec(str)] for the global regular expression whose
    [lastIndex] is [lastIndex]: the match, if any, and the new [lastIndex]. *)
Definition exec (lastIndex : nat) (str : string) : option Match * nat :=
  if Nat.ltb (String.length str) lastIndex then (None, 0)
  else
    match firstMatch lastIndex (drop lastIndex str) with
    | Some m => (Some m, matchEnd m)
    | None => (None, 0)
    end.

(** [LANG_REG_EXP.test(str)]. *)
Definition test (lastIndex : nat) (str : string) : bool * nat :=
  match exec lastIndex str with
  | (Some _, li) => (true, li)
  | (None, li) => (false, li)
  end.

(** ** Dictionaries: the plain objects [dict] (line 118)

    A plain object keeps its string keys in insertion order, and assigning
    to an existing key keeps the key where it is.  The parser only stores
    keys made of two lowercase letters, none of which is an array index, so
    [Object.keys] is the insertion order.  Reads are own-property reads:
    [Object.prototype] has no member whose name is two characters long, so
    this is what [dict[k]] gives for every language code; a language whose
    name is a member of [Object.prototype] is outside the model. *)

Definition Dict := list (string * string).

Fixpoint dictGet (d : Dict) (k : string) : option string :=
  match d with
  | [] => None
  | (k', v) :: tl => if String.eqb k' k then Some v else dictGet tl k
  end.

Fixpoint dictSet (d : Dict) (k v : string) : Dict :=
  match d with
  | [] => [(k, v)]
  | (k', v') :: tl =>
      if String.eqb k' k then (k', v) :: tl else (k', v') :: dictSet tl k v
  end.

Definition keys (d : Dict) : list string := map fst d.

(** ** The parse loop (lines 117-130) *)

(** The body of the [while] loop, once per match. *)
Definition parseStep (acc : Dict * bool) (m : Match) : Dict * bool :=
  (dictSet (fst acc) (code m) (text m),
   if String.eqb (code m) DEFAULT_LANG then true else snd acc).

(** The [while ((match = LANG_REG_EXP.exec(nodeValue)) !== null)] loop.
    [None] means the fuel ran out before [exec] returned [null]. *)
Fixpoint execLoop (fuel : nat) (nodeValue : string) (lastIndex : nat)
    (acc : Dict * bool) : option (Dict * bool * nat) :=
  match fuel with
  | 0 => None
  | S fuel' =>
      match exec lastIndex nodeValue with
      | (Some m, li) => execLoop fuel' nodeValue li (parseStep acc m)
      | (None, li) => Some (acc, li)
      end
  end.

(** Lines 117-130 for one node value: the dictionary, the [hasDefault] flag
    and the final [lastIndex].  Every match is at least seven characters
    long, so the length of the text bounds the number of iterations. *)
Definition parseLoop (nodeValue : string) : option (Dict * bool * nat) :=
  execLoop (S (String.length nodeValue)) nodeValue 0 ([], false).

(** [dict] and [hasDefault] after the loop ([parseLoop] never runs out of
    fuel, see [parseLoop_terminates]). *)
Definition parseNode (nodeValue : string) : Dict * bool :=
  match parseLoop nodeValue with
  | Some (acc, _) => acc
  | None => ([], false)
  end.

(** The dictionary of a text blob. *)
Definition parse (nodeValue : string) : Dict := fst (parseNode nodeValue).

(** ** JavaScript values and completions *)

(** A value that is [null]/[undefined] ([None]) or a string. *)
Definition JsValue := option string.

Definition truthy (v : JsValue) : bool :=
  match v with
  | Some s => negb (isEmpty s)
  | None => false
  end.

(** [a || b]. *)
Definition jsOr (a b : JsValue) : JsValue := if truthy a then a else b.

(** [a || b] where [b] is a string. *)
Definition orString (a : JsValue) (b : string) : string :=
  match a with
  | Some s => if isEmpty s then b else s
  | None => b
  end.

Inductive Exn := SecurityError | SyntaxError.

(** How a call ends: with a value, or with a thrown exception. *)
Inductive Completion (A : Type) :=
| Normal (a : A)
| Throw (e : Exn).
Arguments Normal {A} a.
Arguments Throw {A} e.

(** ** The browser *)

(** [localStorage].  When [accessible] is false every access throws, as
    with storage disabled or blocked, and the items are out of reach; an
    accessible storage takes every write. *)
Record Storage := mkStorage { accessible : bool; items : Dict }.

Definition localStorage_getItem (st : Storage) (k : string) : Completion JsValue :=
  if accessible st then Normal (dictGet (items st) k) else Throw SecurityError.

Definition localStorage_setItem (st : Storage) (k v : string) : Completion Storage :=
  if accessible st then Normal (mkStorage true (dictSet (items st) k v))
  else Throw SecurityError.

Definition localStorage_removeItem (st : Storage) (k : string) : Completion Storage :=
  if accessible st
  then Normal (mkStorage true
                 (filter (fun kv => negb (String.eqb (fst kv) k)) (items st)))
  else Throw SecurityError.

Record Navigator := mkNavigator { language : JsValue; userLanguage : JsValue }.

(** An element: its [autolang] attribute, if it has one, and
    [style.display]. *)
Record Element := mkElement { autolang : option string; display : string }.

(** What the script does to the outside, in order. *)
Inductive Event :=
| Warn (message : string) (arg : JsValue)    (* console.warn(message, arg) *)
| SetNodeValue (node : nat) (value : string) (* node.nodeValue = value *)
| SetDisplay (el : nat) (value : string).    (* el.style.display = value *)

(** [textNodes] holds the [nodeValue] of every text node under
    [document.body], in document order; a text node is referred to by its
    position, an element by its position in [elements]. *)
Record World := mkWorld {
  search : string;                (* location.search *)
  navigator : Navigator;
  storage : Storage;
  textNodes : list string;
  elements : list Element;
  log : list Event
}.

Definition withStorage (w : World) (st : Storage) : World :=
  mkWorld (search w) (navigator w) st (textNodes w) (elements w) (log w).

Definition emit (w : World) (e : Event) : World :=
  mkWorld (search w) (navigator w) (storage w) (textNodes w) (elements w)
          (log w ++ [e]).

Fixpoint replaceAt {A : Type} (n : nat) (x : A) (l : list A) : list A :=
  match l, n with
  | [], _ => []
  | _ :: tl, 0 => x :: tl
  | y :: tl, S k => y :: replaceAt k x tl
  end.

(** [node.nodeValue = value]. *)
Definition setNodeValue (n : nat) (value : string) (w : World) : World :=
  mkWorld (search w) (navigator w) (storage w)
          (replaceAt n value (textNodes w)) (elements w)
          (log w ++ [SetNodeValue n value]).

(** [el.style.display = value]. *)
Definition setDisplay (value : string) (w : World) (i : nat) : World :=
  mkWorld (search w) (navigator w) (storage w) (textNodes w)
          (match nth_error (elements w) i with
           | Some el => replaceAt i (mkElement (autolang el) value) (elements w)
           | None => elements w
           end)
          (log w ++ [SetDisplay i value]).

(** The positions, counted from [i], of the members of [l] that satisfy
    [p]. *)
Fixpoint positions {A : Type} (p : A -> bool) (i : nat) (l : list A) : list nat :=
  match l with
  | [] => []
  | x :: tl => (if p x then [i] else []) ++ positions p (S i) tl
  end.

(** ** The script's own state *)

Record Item := mkItem { node : nat; dict : Dict }.

Record Module := mkModule {
  isStorageEnabled : bool;
  currentLang : string;
  globalDict : list Item
}.

(** ** Storage probe (lines 15-24) *)

Definition testKey : string := "__test__".

(** The value of [isStorageEnabled] and the storage the probe leaves. *)
Definition probeStorage (st : Storage) : bool * Storage :=
  match localStorage_setItem st testKey testKey with
  | Throw _ => (false, st)
  | Normal st1 =>
      match localStorage_removeItem st1 testKey with
      | Throw _ => (false, st1)
      | Normal st2 => (true, st2)
      end
  end.

(** ** Language detection (lines 29-45) *)

(** The character class [[?&]]. *)
Definition isSeparator (c : ascii) : bool := Ascii.eqb c "?" || Ascii.eqb c "&".

(** One attempt of [/[?&]lang=([a-z]{2})/] at the head of [s]. *)
Definition paramHere (s : string) : JsValue :=
  match s with
  | String c tl =>
      if isSeparator c && startsWith "lang=" tl then
        match drop 5 tl with
        | String a (String b _) =>
            if isLower a && isLower b
            then Some (String a (String b EmptyString)) else None
        | _ => None
        end
      else None
  | EmptyString => None
  end.

(** [getLangParam] on [location.search]: the group of the leftmost match. *)
Fixpoint getLangParam (s : string) : JsValue :=
  match paramHere s with
  | Some c => Some c
  | None =>
      match s with
      | EmptyString => None
      | String _ tl => getLangParam tl
      end
  end.

Definition getLangFromStorage (enabled : bool) (st : Storage) : Completion JsValue :=
  if enabled then localStorage_getItem st LANG_STORAGE_KEY else Normal None.

Definition getBrowserLang (nav : Navigator) : string :=
  take 2 (orString (jsOr (language nav) (userLanguage nav)) DEFAULT_LANG).

(** Line 45: the initial value of [currentLang].  [||] evaluates its right
    operand only when the left one is falsy.  The world is returned as the
    call leaves it. *)
Definition resolveInitial (enabled : bool) (w : World) : World * Completion string :=
  let p := getLangParam (search w) in
  if truthy p then (w, Normal (orString p EmptyString))
  else
    match getLangFromStorage enabled (storage w) with
    | Throw e => (w, Throw e)
    | Normal v => (w, Normal (orString v (getBrowserLang (navigator w))))
    end.

(** ** Diagnostics *)

(** The [console.warn] of line 95. *)
Definition invalidLangWarning (lang : JsValue) : Event :=
  Warn "Invalid language code provided to setLang:" lang.

(** The [console.warn] of line 139. *)
Definition missingDefaultWarning (firstKey nodeValue : string) : Event :=
  Warn ("Missing default language (" ++ DEFAULT_LANG
        ++ ") text. Using first available (" ++ firstKey
        ++ ") as fallback for:")%string
       (Some (take 50 nodeValue ++ "...")%string).

(** ** Core functions (lines 54-105), over the browser's selector engine *)

Section Engine.

(** [document.querySelectorAll(selector)] over the elements of the
    document: the positions of the selected elements in document order, or
    [None] when the selector text is not a valid selector and the call
    throws a [SyntaxError]. *)
Variable querySelectorAll : string -> list Element -> option (list nat).

(** [getTextNodes] (lines 57-69): line 66 resets [lastIndex], so every
    [test] starts from 0. *)
Definition getTextNodes (values : list string) : list nat :=
  positions (fun v => fst (test 0 v)) 0 values.

(** Line 76. *)
Definition newText (lang : string) (d : Dict) : string :=
  orString (jsOr (dictGet d lang) (dictGet d DEFAULT_LANG)) EmptyString.

(** The callback of [globalDict.forEach] (lines 74-81). *)
Definition updateItem (lang : string) (w : World) (item : Item) : World :=
  match nth_error (textNodes w) (node item) with
  | Some current =>
      if String.eqb current (newText lang (dict item)) then w
      else setNodeValue (node item) (newText lang (dict item)) w
  | None => w
  end.

(** The selector text of line 87. *)
Definition autolangSelector (lang : string) : string :=
  "*[autolang=" ++ dquote ++ lang ++ dquote ++ "]".

(** [applyLang] (lines 72-90). *)
Definition applyLang (m : Module) (w : World) : World * Completion unit :=
  let w1 := fold_left (updateItem (currentLang m)) (globalDict m) w in
  match querySelectorAll "*[autolang]" (elements w1) with
  | None => (w1, Throw SyntaxError)
  | Some marked =>
      let w2 := fold_left (setDisplay "none") marked w1 in
      match querySelectorAll (autolangSelector (currentLang m)) (elements w2) with
      | None => (w2, Throw SyntaxError)
      | Some shown => (fold_left (setDisplay EmptyString) shown w2, Normal tt)
      end
  end.

(** [setLang] (lines 93-105); the argument is [null]/[undefined] or a
    string. *)
Definition setLang (m : Module) (w : World) (lang : JsValue)
    : Module * World * Completion unit :=
  match lang with
  | Some s =>
      if isEmpty s || negb (String.length s =? 2)%nat then
        (m, emit w (invalidLangWarning lang), Normal tt)
      else
        let m1 := mkModule (isStorageEnabled m) s (globalDict m) in
        if isStorageEnabled m then
          match localStorage_setItem (storage w) LANG_STORAGE_KEY s with
          | Throw e => (m1, w, Throw e)
          | Normal st =>
              let r := applyLang m1 (withStorage w st) in (m1, fst r, snd r)
          end
        else
          let r := applyLang m1 w in (m1, fst r, snd r)
  | None => (m, emit w (invalidLangWarning lang), Normal tt)
  end.

(** The callback of [textNodes.forEach] (lines 116-144); [acc] is
    [globalDict] and the log.  [Object.keys(dict)[0]] is the key of the
    first entry of [dict], and [dict[firstKey]] the text of that entry. *)
Definition indexNode (values : list string) (acc : list Item * list Event)
    (n : nat) : list Item * list Event :=
  match nth_error values n with
  | None => acc
  | Some nodeValue =>
      let (d, hasDefault) := parseNode nodeValue in
      if (0 <? List.length (keys d))%nat then
        if negb hasDefault then
          match d with
          | (firstKey, firstText) :: _ =>
              if isEmpty firstKey then (fst acc ++ [mkItem n d], snd acc)
              else
                (fst acc ++ [mkItem n (dictSet d DEFAULT_LANG firstText)],
                 snd acc ++ [missingDefaultWarning firstKey nodeValue])
          | [] => (fst acc ++ [mkItem n d], snd acc)
          end
        else (fst acc ++ [mkItem n d], snd acc)
      else acc
  end.

(** Lines 114-144: the index built from the text nodes of the document. *)
Definition buildIndex (values : list string) (acc : list Item * list Event)
    : list Item * list Event :=
  fold_left (indexNode values) (getTextNodes values) acc.

(** The [DOMContentLoaded] handler up to line 147: index build, then the
    first [applyLang].  (The rest of the handler registers the click
    listener and publishes [setLang].) *)
Definition onDOMContentLoaded (m : Module) (w : World) : Module * World * Completion unit :=
  let (gd, lg) := buildIndex (textNodes w) (globalDict m, log w) in
  let m1 := mkModule (isStorageEnabled m) (currentLang m) gd in
  let w1 := mkWorld (search w) (navigator w) (storage w) (textNodes w)
                    (elements w) lg in
  let r := applyLang m1 w1 in (m1, fst r, snd r).

End Engine.

(** The body of the script before [DOMContentLoaded] (lines 15-54). *)
Definition loadModule (w : World) : World * Completion Module :=
  let (enabled, st) := probeStorage (storage w) in
  let w1 := withStorage w st in
  match resolveInitial enabled w1 with
  | (w2, Throw e) => (w2, Throw e)
  | (w2, Normal lang) => (w2, Normal (mkModule enabled lang []))
  end.

(** ** Notions the statements are written with *)

(** Every character of [s] is other than an opening bracket. *)
Fixpoint bracketFree (s : string) : bool :=
  match s with
  | EmptyString => true
  | String c tl => notBracket c && bracketFree tl
  end.

(** A content segment as the pattern takes it: at least one character, no
    opening bracket. *)
Definition isContent (s : string) : bool := negb (isEmpty s) && bracketFree s.

(** [s] is the end of the string or starts with an opening bracket: the
    places where the greedy group stops. *)
Definition stopsHere (s : string) : bool :=
  match s with
  | EmptyString => true
  | String c _ => Ascii.eqb c "["
  end.

(** The successive matches of [LANG_REG_EXP] in [s], left to right, each
    search resuming where the previous match ended.  [s] sits at position
    [i] of the subject and its first [skip] characters belong to the
    previous match. *)
Fixpoint matchesFrom (skip i : nat) (s : string) : list Match :=
  match s with
  | EmptyString => []
  | String _ tl =>
      match skip with
      | S k => matchesFrom k (S i) tl
      | 0 =>
          match matchHere i s with
          | Some m => m :: matchesFrom (5 + String.length (text m)) (S i) tl
          | None => matchesFrom 0 (S i) tl
          end
      end
  end.

Definition matches (s : string) : list Match := matchesFrom 0 0 s.

(** The text of the last match of [ms] whose code is [k]. *)
Fixpoint lastText (k : string) (ms : list Match) : option string :=
  match ms with
  | [] => None
  | m :: tl =>
      match lastText k tl with
      | Some t => Some t
      | None => if String.eqb (code m) k then Some (text m) else None
      end
  end.

(** The content of a tag in the words of the specification: the text up to,
    and not including, the next [[[] or the end of the string. *)
Fixpoint spec_content (s : string) : string :=
  match s with
  | EmptyString => EmptyString
  | String c tl =>
      if Ascii.eqb c "[" && startsWith "[" tl then EmptyString
      else String c (spec_content tl)
  end.

(** [dict[lang] ?? dict[defaultLang] ?? ""], the text of a node in the words
    of the specification. *)
Definition spec_text (lang : string) (d : Dict) : string :=
  match dictGet d lang with
  | Some t => t
  | None =>
      match dictGet d DEFAULT_LANG with
      | Some t => t
      | None => EmptyString
      end
  end.

Definition hasAutolang (el : Element) : bool :=
  match autolang el with Some _ => true | None => false end.

Definition autolangIs (v : string) (el : Element) : bool :=
  match autolang el with Some a => String.eqb a v | None => false end.

(** An element after the two visibility passes, in the words of the
    specification: marked elements are hidden, except those whose marker
    equals [lang]; the others are left alone. *)
Definition spec_visibility (lang : string) (el : Element) : Element :=
  if autolangIs lang el then mkElement (autolang el) EmptyString
  else if hasAutolang el then mkElement (autolang el) "none"
  else el.

(** The first truthy candidate, else [d]: "first non-empty wins". *)
Fixpoint spec_firstNonEmpty (candidates : list JsValue) (d : string) : string :=
  match candidates with
  | [] => d
  | c :: tl => if truthy c then orString c d else spec_firstNonEmpty tl d
  end.

(** The persisted choice when storage is available and holds a value. *)
Definition spec_persistedChoice (st : Storage) : JsValue :=
  if accessible st then dictGet (items st) LANG_STORAGE_KEY else None.

(** The language the environment reports, cut to its first two characters. *)
Definition spec_environmentLang (nav : Navigator) : JsValue :=
  match jsOr (language nav) (userLanguage nav) with
  | Some l => Some (take 2 l)
  | None => None
  end.

(** What makes an index well formed: every item refers to a text node of the
    document, no node is indexed twice, and no stored text is empty. *)
Definition IndexOk (gd : list Item) (values : list string) : Prop :=
  NoDup (map node gd) /\
  Forall (fun it => node it < List.length values /\
                    Forall (fun kv => snd kv <> EmptyString) (dict it)) gd.

(** The selector engine's contract on the two selectors the script issues
    with a language code. *)
Definition EngineOk (qsa : string -> list Element -> option (list nat)) : Prop :=
  (forall els, qsa "*[autolang]" els = Some (positions hasAutolang 0 els)) /\
  (forall lang els, isLangCode lang = true ->
     qsa (autolangSelector lang) els = Some (positions (autolangIs lang) 0 els)).

(** A small selector engine to run the model on examples: it knows the two
    selector shapes of the script, the second with a two-letter code, and
    rejects any other selector text. *)
Definition refEngine (selector : string) (els : list Element) : option (list nat) :=
  if String.eqb selector "*[autolang]" then Some (positions hasAutolang 0 els)
  else if startsWith ("*[autolang=" ++ dquote) selector
          && isLangCode (take 2 (drop 12 selector))
          && String.eqb (drop 14 selector) (dquote ++ "]")
  then Some (positions (autolangIs (take 2 (drop 12 selector))) 0 els)
  else None.

(** The same match, [i] positions further. *)
Definition shiftIndex (i : nat) (m : Match) : Match :=
  mkMatch (i + index m) (code m) (text m).

(** An argument of [setLang] that is [null]/absent or not of length 2. *)
Definition spec_invalid (lang : JsValue) : bool :=
  match lang with
  | Some s => negb (String.length s =? 2)%nat
  | None => true
  end.

(** The writes of a text pass over an index without repeated node, where
    [textOf] gives the text a dictionary calls for: one write per item
    whose node does not show that text yet. *)
Definition textWrites (textOf : Dict -> string) (values : list string)
    (gd : list Item) : list Event :=
  flat_map
    (fun it =>
       match nth_error values (node it) with
       | Some current =>
           if String.eqb current (textOf (dict it)) then []
           else [SetNodeValue (node it) (textOf (dict it))]
       | None => []
       end) gd.

(** The node values after the text pass of [applyLang]. *)
Definition textsAfter (lang : string) (gd : list Item) (values : list string)
    : list string :=
  fold_left
    (fun vs it => replaceAt (node it) (newText lang (dict it)) vs) gd values.

(** The dictionary of the last item of [gd] that refers to node [n]. *)
Fixpoint lastDict (n : nat) (gd : list Item) : option Dict :=
  match gd with
  | [] => None
  | it :: tl =>
      match lastDict n tl with
      | Some d => Some d
      | None => if Nat.eqb (node it) n then Some (dict it) else None
      end
  end.

(** What index build stores for a node, and the diagnostic it logs. *)
Definition Indexed (values : list string) (lg : list Event) (it : Item) : Prop :=
  exists nodeValue,
    nth_error values (node it) = Some nodeValue /\
    parse nodeValue <> [] /\
    ((snd (parseNode nodeValue) = true /\ dict it = parse nodeValue) \/
     (snd (parseNode nodeValue) = false /\
      exists k v tl,
        parse nodeValue = (k, v) :: tl /\
        dict it = dictSet (parse nodeValue) DEFAULT_LANG v /\
        In (missingDefaultWarning k nodeValue) lg)).

(** ** Example pages *)

Definition noNavigator : Navigator := mkNavigator None None.

(** A greeting in two languages, an untagged node and an indexed farewell,
    with four elements: marked [en], unmarked, marked [ca], and marked
    without value. *)
Definition greetingIndex : list Item :=
  [mkItem 0 [("ca", "Hola"); ("en", "Hello")]; mkItem 2 [("ca", "Adeu")]].

Definition greetingWorld : World :=
  mkWorld "" noNavigator (mkStorage false [])
    ["[[ca]]Hola[[en]]Hello"; "plain"; "Adeu"]
    [mkElement (Some "en") "none"; mkElement None "block";
     mkElement (Some "ca") ""; mkElement (Some "") ""] [].

(** A page whose only tagged node lacks the default language. *)
Definition helloValues : list string := ["[[en]]Hello"; "no tag here"].

Definition helloItem : Item := mkItem 0 [("en", "Hello"); ("ca", "Hello")].

Definition helloWorld : World :=
  mkWorld "" noNavigator (mkStorage false []) helloValues [] [].


(** A page whose storage holds a choice but is out of reach. *)
Definition blockedWorld : World :=
  mkWorld "" (mkNavigator (Some "en-US") None)
    (mkStorage false [("lang", "fr")])
    ["[[ca]]Hola[[en]]Hello"] [mkElement (Some "en") ""] [].

(** A page in Catalan with working storage. *)
Definition catalanModule : Module :=
  mkModule true "ca" [mkItem 0 [("ca", "Hola"); ("en", "Hello")]].

Definition catalanWorld : World :=
  mkWorld "" noNavigator (mkStorage true [("lang", "ca")])
    ["Hola"] [mkElement (Some "en") "none"] [].

(** ** The guard of [setLang] on any value (lines 94-98)

    The guard [!lang || lang.length !== 2] reads two things of its
    argument, whatever its type: whether it is truthy, and whether its
    [length] property is the number 2. *)

Inductive Value :=
| VNull                                   (* null or undefined *)
| VString (s : string)
| VArray (items : list string)            (* an array of strings *)
| VOther (isTruthy lengthIs2 : bool).     (* any other value, by what the
                                             guard reads of it: a number is
                                             [VOther _ false], a function
                                             of two parameters
                                             [VOther true true] *)

(** [!!v]. *)
Definition valueTruthy (v : Value) : bool :=
  match v with
  | VNull => false
  | VString s => negb (isEmpty s)
  | VArray _ => true
  | VOther t _ => t
  end.

(** [v.length === 2], for a [v] that is not [null] or [undefined]. *)
Definition valueLengthIs2 (v : Value) : bool :=
  match v with
  | VNull => false
  | VString s => (String.length s =? 2)%nat
  | VArray l => (List.length l =? 2)%nat
  | VOther _ b => b
  end.

(** Line 94: [!lang || lang.length !== 2]. *)
Definition guardRejects (lang : Value) : bool :=
  negb (valueTruthy lang) || negb (valueLengthIs2 lang).

(** Lines 94-98: the value of [currentLang] after [setLang(lang)].  The
    assignment of line 98 comes before anything that can throw, so this is
    the value whether the call then returns or throws.  What lines
    99-104 do with an accepted value that is not a string (its string form
    is what gets stored and looked up) is not modelled: [setLang] above
    takes strings and [null]. *)
Definition currentLangAfter (current lang : Value) : Value :=
  if guardRejects lang then current else lang.

(** The arguments of [setLang] the rest of the model speaks of. *)
Definition ofJsValue (v : JsValue) : Value :=
  match v with
  | Some s => VString s
  | None => VNull
  end.

(** ** Series of calls of [setLang] *)





(** ** The click listener (lines 151-168) *)

(** The character class of the two quote characters, single and double. *)
Definition isQuote (c : ascii) : bool :=
  Ascii.eqb c "'" || Ascii.eqb c (ascii_of_nat 34).

(** One attempt of the pattern of line 159 at the head of [s]: the text
    [setLang(], a quote character, two lowercase letters, a quote character
    and a closing parenthesis. *)
Definition actionHere (s : string) : JsValue :=
  if startsWith "setLang(" s then
    match drop 8 s with
    | String q1 (String a (String b (String q2 (String c _)))) =>
        if isQuote q1 && isLower a && isLower b && isQuote q2
           && Ascii.eqb c ")"
        then Some (String a (String b EmptyString)) else None
    | _ => None
    end
  else None.

(** Line 159: the group of the leftmost match in [action], or [null]. *)
Fixpoint matchAction (action : string) : JsValue :=
  match actionHere action with
  | Some c => Some c
  | None =>
      match action with
      | EmptyString => None
      | String _ tl => matchAction tl
      end
  end.

(** The [console.warn] of line 165. *)
Definition unrecognizedActionWarning (action : string) : Event :=
  Warn "Unrecognized action in whenClick attribute:" (Some action).

(** The click listener.  [closest] is the [whenClick] attribute of
    [event.target.closest('[whenClick]')], or [None] when there is no such
    element; the boolean tells whether [event.preventDefault()] was
    called. *)
Definition onClick (qsa : string -> list Element -> option (list nat))
    (m : Module) (w : World) (closest : option string)
    : Module * World * Completion unit * bool :=
  match closest with
  | None => (m, w, Normal tt, false)
  | Some action =>
      match matchAction action with
      | Some c =>
          if isEmpty c
          then (m, emit w (unrecognizedActionWarning action), Normal tt, false)
          else (setLang qsa m w (Some c), true)
      | None =>
          (m, emit w (unrecognizedActionWarning action), Normal tt, false)
      end
  end.

(** ** More notions for the statements *)

(** [s] contains two opening brackets in a row. *)
Fixpoint hasTagOpen (s : string) : bool :=
  match s with
  | EmptyString => false
  | String c tl => (Ascii.eqb c "[" && startsWith "[" tl) || hasTagOpen tl
  end.

(** [ks] with [k] added at the end unless it is there already. *)
Definition addKey (ks : list string) (k : string) : list string :=
  if existsb (String.eqb k) ks then ks else ks ++ [k].

(** What a text node shows once the page is painted in [lang]: the content
    tagged [lang], else the content tagged with the default language, else
    the content of the first code of the node; a node without match keeps
    its text. *)
Definition paint (lang nodeValue : string) : string :=
  match dictGet (parse nodeValue) lang with
  | Some t => t
  | None =>
      match dictGet (parse nodeValue) DEFAULT_LANG with
      | Some t => t
      | None =>
          match parse nodeValue with
          | (_, t) :: _ => t
          | [] => nodeValue
          end
      end
  end.

(** The diagnostic index build logs for a node value, if any. *)
Definition diagnosticOf (nodeValue : string) : list Event :=
  match parse nodeValue with
  | (firstKey, _) :: _ =>
      match dictGet (parse nodeValue) DEFAULT_LANG with
      | Some _ => []
      | None => [missingDefaultWarning firstKey nodeValue]
      end
  | [] => []
  end.

(** A page with two tagged nodes, one of them without default text, and
    its index. *)
Definition shopValues : list string :=
  ["[[ca]]Botiga[[en]]Shop"; "Barcelona"; "[[en]]Cart[[es]]Cesta"].

Definition shopWorld : World :=
  mkWorld "" (mkNavigator (Some "en-GB") None) (mkStorage true [("theme", "dark")])
    shopValues
    [mkElement (Some "en") ""; mkElement (Some "ca") ""; mkElement None "flex"]
    [].

Definition shopModule : Module :=
  mkModule true "en" (fst (buildIndex shopValues ([], []))).

(** * Verification *)

(** ** Strings *)

Lemma append_empty_r (s : string) : (s ++ "")%string = s.
Proof. induction s as [|c s IH]; simpl; [reflexivity | now rewrite IH]. Qed.

Lemma append_assoc (a b c : string) :
  ((a ++ b) ++ c)%string = (a ++ (b ++ c))%string.
Proof. induction a as [|x a IH]; simpl; [reflexivity | now rewrite IH]. Qed.

Lemma length_append (a b : string) :
  String.length (a ++ b) = String.length a + String.length b.
Proof. induction a as [|x a IH]; simpl; [reflexivity | now rewrite IH]. Qed.

Lemma drop_empty (n : nat) : drop n "" = "".
Proof. destruct n; reflexivity. Qed.

Lemma drop_append (a b : string) : drop (String.length a) (a ++ b) = b.
Proof. induction a as [|x a IH]; simpl; [reflexivity | exact IH]. Qed.

Lemma drop_drop (a b : nat) (s : string) : drop a (drop b s) = drop (b + a) s.
Proof.
  revert s; induction b as [|b IH]; intros s; simpl; [reflexivity|].
  destruct s as [|c s]; [apply drop_empty | apply IH].
Qed.

Lemma length_drop (n : nat) (s : string) :
  String.length (drop n s) = String.length s - n.
Proof.
  revert s; induction n as [|n IH]; intros s; simpl; [lia|].
  destruct s as [|c s]; simpl; [reflexivity | apply IH].
Qed.

Lemma drop_all (n : nat) (s : string) : String.length s <= n -> drop n s = "".
Proof.
  revert s; induction n as [|n IH]; intros [|c s]; simpl; intros H;
    try reflexivity; try lia.
  apply IH; lia.
Qed.

Lemma isEmpty_true (s : string) : isEmpty s = true <-> s = "".
Proof. destruct s; simpl; split; congruence. Qed.

Lemma isEmpty_false (s : string) : isEmpty s = false <-> s <> "".
Proof. destruct s; simpl; split; congruence. Qed.

Lemma isLower_notBracket (c : ascii) : isLower c = true -> Ascii.eqb c "[" = false.
Proof.
  intros H; destruct (Ascii.eqb_spec c "[") as [->|]; [|reflexivity].
  vm_compute in H; discriminate.
Qed.

Lemma isLangCode_inv (s : string) :
  isLangCode s = true ->
  exists a b, s = String a (String b "") /\ isLower a = true /\ isLower b = true.
Proof.
  destruct s as [|a [|b [|c s]]]; simpl; try discriminate.
  intros H; apply andb_true_iff in H; destruct H; eauto.
Qed.

Lemma isLangCode_length (s : string) : isLangCode s = true -> String.length s = 2.
Proof. intros H; destruct (isLangCode_inv s H) as (a & b & -> & _); reflexivity. Qed.

Lemma isContent_inv (t : string) :
  isContent t = true -> t <> "" /\ bracketFree t = true.
Proof.
  unfold isContent; intros H; apply andb_true_iff in H; destruct H as [H1 H2].
  split; [|exact H2]. apply isEmpty_false. now destruct (isEmpty t).
Qed.

(** ** The greedy group *)

Lemma takeNotBracket_split (s : string) :
  s = (takeNotBracket s ++ drop (String.length (takeNotBracket s)) s)%string.
Proof.
  induction s as [|c s IH]; simpl; [reflexivity|].
  destruct (notBracket c); simpl; [now rewrite <- IH | reflexivity].
Qed.

Lemma takeNotBracket_free (s : string) : bracketFree (takeNotBracket s) = true.
Proof.
  induction s as [|c s IH]; simpl; [reflexivity|].
  destruct (notBracket c) eqn:E; simpl; [now rewrite E | reflexivity].
Qed.

Lemma takeNotBracket_stops (s : string) :
  stopsHere (drop (String.length (takeNotBracket s)) s) = true.
Proof.
  induction s as [|c s IH]; simpl; [reflexivity|].
  unfold notBracket; destruct (Ascii.eqb c "[") eqn:E; simpl; [exact E | exact IH].
Qed.

Lemma takeNotBracket_append (t rest : string) :
  bracketFree t = true -> stopsHere rest = true ->
  takeNotBracket (t ++ rest) = t.
Proof.
  intros Ht Hr; induction t as [|c t IH]; simpl in *.
  - destruct rest as [|c r]; simpl in *; [reflexivity|].
    unfold notBracket; now rewrite Hr.
  - apply andb_true_iff in Ht; destruct Ht as [Hc Ht].
    rewrite Hc, (IH Ht); reflexivity.
Qed.

(** ** One attempt of the pattern *)

Lemma matchHere_intro (i : nat) (c t rest : string) :
  isLangCode c = true -> isContent t = true -> stopsHere rest = true ->
  matchHere i (tag c ++ t ++ rest) = Some (mkMatch i c t).
Proof.
  intros Hc Ht Hr.
  destruct (isLangCode_inv c Hc) as (a & b & -> & Ha & Hb).
  destruct (isContent_inv t Ht) as [Hne Hfree].
  unfold tag; simpl. rewrite Ha, Hb; simpl.
  rewrite (takeNotBracket_append t rest Hfree Hr).
  apply isEmpty_false in Hne; now rewrite Hne.
Qed.

Lemma matchHere_elim (i : nat) (s : string) (m : Match) :
  matchHere i s = Some m ->
  index m = i /\ isLangCode (code m) = true /\ isContent (text m) = true /\
  s = (tag (code m) ++ text m ++ drop (6 + String.length (text m)) s)%string /\
  stopsHere (drop (6 + String.length (text m)) s) = true.
Proof.
  destruct s as [|c0 [|c1 [|a [|b [|c4 [|c5 tl]]]]]]; simpl; try discriminate.
  destruct (Ascii.eqb_spec c0 "[") as [->|]; simpl; try discriminate.
  destruct (Ascii.eqb_spec c1 "[") as [->|]; simpl; try discriminate.
  destruct (isLower a) eqn:Ha; simpl; try discriminate.
  destruct (isLower b) eqn:Hb; simpl; try discriminate.
  destruct (Ascii.eqb_spec c4 "]") as [->|]; simpl; try discriminate.
  destruct (Ascii.eqb_spec c5 "]") as [->|]; simpl; try discriminate.
  destruct (isEmpty (takeNotBracket tl)) eqn:He; try discriminate.
  intros H; injection H as <-; simpl.
  repeat split.
  - now rewrite Ha, Hb.
  - unfold isContent; now rewrite He, takeNotBracket_free.
  - unfold tag; simpl; do 6 f_equal. apply takeNotBracket_split.
  - apply takeNotBracket_stops.
Qed.

Lemma matchHere_length (i : nat) (s : string) (m : Match) :
  matchHere i s = Some m -> 7 + String.length (text m) <= 1 + String.length s
                            /\ 1 <= String.length (text m).
Proof.
  intros H; destruct (matchHere_elim i s m H) as (_ & Hc & Ht & Hs & _).
  destruct (isContent_inv _ Ht) as [Hne _].
  apply (f_equal String.length) in Hs.
  rewrite !length_append in Hs. unfold tag in Hs; rewrite !length_append in Hs.
  rewrite (isLangCode_length _ Hc) in Hs; simpl in Hs.
  destruct (text m); [congruence | simpl in *; lia].
Qed.

(** ** The loop against the list of matches *)

Lemma matchesFrom_skip (k i : nat) (s : string) :
  matchesFrom k i s = matchesFrom 0 (i + k) (drop k s).
Proof.
  revert k i; induction s as [|c s IH]; intros k i.
  - rewrite drop_empty; reflexivity.
  - destruct k as [|k]; simpl.
    + now rewrite Nat.add_0_r.
    + rewrite IH. now replace (S i + k) with (i + S k) by lia.
Qed.

Lemma firstMatch_none (i : nat) (s : string) :
  firstMatch i s = None -> matchesFrom 0 i s = [].
Proof.
  revert i; induction s as [|c s IH]; intros i H; [reflexivity|].
  cbn [firstMatch] in H; cbn [matchesFrom].
  destruct (matchHere i (String c s)); [discriminate | now apply IH].
Qed.

Lemma firstMatch_some (i : nat) (s : string) (m : Match) :
  firstMatch i s = Some m ->
  i <= index m /\ matchEnd m <= i + String.length s /\
  matchesFrom 0 i s
  = m :: matchesFrom 0 (matchEnd m) (drop (matchEnd m - i) s).
Proof.
  revert i; induction s as [|c s IH]; intros i H; [discriminate|].
  cbn [firstMatch] in H; cbn [matchesFrom].
  destruct (matchHere i (String c s)) as [m0|] eqn:E.
  - injection H as ->.
    destruct (matchHere_elim _ _ _ E) as (Hi & _).
    destruct (matchHere_length _ _ _ E) as [Hl _].
    unfold matchEnd; rewrite Hi. simpl in Hl. cbn [String.length].
    repeat split; try lia.
    rewrite matchesFrom_skip.
    replace (i + 6 + String.length (text m) - i)
      with (S (5 + String.length (text m))) by lia.
    replace (S i + (5 + String.length (text m)))
      with (i + 6 + String.length (text m)) by lia.
    reflexivity.
  - destruct (IH _ H) as (H1 & H2 & H3).
    cbn [String.length]. repeat split; try lia.
    rewrite H3.
    assert (Hm : S i <= matchEnd m) by (unfold matchEnd; lia).
    replace (matchEnd m - i) with (S (matchEnd m - S i)) by lia.
    reflexivity.
Qed.

Lemma execLoop_matches (fuel : nat) (s : string) (li : nat) (acc : Dict * bool) :
  li <= String.length s -> String.length s - li < fuel ->
  execLoop fuel s li acc
  = Some (fold_left parseStep (matchesFrom 0 li (drop li s)) acc, 0).
Proof.
  revert li acc; induction fuel as [|fuel IH]; intros li acc Hli Hf; [lia|].
  cbn [execLoop]. unfold exec.
  destruct (Nat.ltb_spec (String.length s) li) as [Hlt|_]; [lia|].
  destruct (firstMatch li (drop li s)) as [m|] eqn:E.
  - destruct (firstMatch_some _ _ _ E) as (H1 & H2 & H3).
    rewrite length_drop in H2.
    assert (Hm : li + 6 <= matchEnd m) by (unfold matchEnd; lia).
    rewrite IH by lia.
    rewrite H3, drop_drop.
    replace (li + (matchEnd m - li)) with (matchEnd m) by lia.
    reflexivity.
  - now rewrite (firstMatch_none _ _ E).
Qed.

Lemma parseLoop_matches (s : string) :
  parseLoop s = Some (fold_left parseStep (matches s) ([], false), 0).
Proof. unfold parseLoop; rewrite execLoop_matches by lia; reflexivity. Qed.

Lemma parseNode_matches (s : string) :
  parseNode s = fold_left parseStep (matches s) ([], false).
Proof. unfold parseNode; now rewrite parseLoop_matches. Qed.

(** ** Dictionaries *)

Lemma dictGet_dictSet (d : Dict) (k v k' : string) :
  dictGet (dictSet d k v) k' = if String.eqb k k' then Some v else dictGet d k'.
Proof.
  induction d as [|[k0 v0] d IH]; simpl; [reflexivity|].
  destruct (String.eqb_spec k0 k) as [->|Hk]; simpl.
  - destruct (String.eqb k k'); reflexivity.
  - rewrite IH. destruct (String.eqb_spec k0 k') as [->|]; [|reflexivity].
    destruct (String.eqb_spec k k'); congruence.
Qed.

Lemma dictSet_fresh (d : Dict) (k v : string) :
  dictGet d k = None -> dictSet d k v = d ++ [(k, v)].
Proof.
  induction d as [|[k0 v0] d IH]; simpl; [reflexivity|].
  destruct (String.eqb k0 k); [discriminate | intros H; now rewrite IH].
Qed.

Lemma dictSet_head (d : Dict) (k0 v0 k v : string) :
  exists v' tl', dictSet ((k0, v0) :: d) k v = (k0, v') :: tl'.
Proof. simpl; destruct (String.eqb k0 k); eauto. Qed.

Lemma dictGet_In (d : Dict) (k v : string) :
  dictGet d k = Some v -> In (k, v) d.
Proof.
  induction d as [|[k0 v0] d IH]; simpl; [discriminate|].
  destruct (String.eqb_spec k0 k) as [->|]; [intros [= ->]; now left | auto].
Qed.

Lemma In_dictGet (d : Dict) (k v : string) :
  In (k, v) d -> exists v', dictGet d k = Some v'.
Proof.
  induction d as [|[k0 v0] d IH]; simpl; [tauto|].
  intros [[= -> ->]|H].
  - rewrite String.eqb_refl; eauto.
  - destruct (String.eqb k0 k); eauto.
Qed.

Lemma In_dictSet (d : Dict) (k v k' v' : string) :
  In (k', v') (dictSet d k v) -> In (k', v') d \/ (k' = k /\ v' = v).
Proof.
  induction d as [|[k0 v0] d IH]; simpl.
  - intros [[= <- <-]|[]]; auto.
  - destruct (String.eqb_spec k0 k) as [->|]; simpl.
    + intros [[= <- <-]|H]; auto.
    + intros [H|H]; auto. destruct (IH H); auto.
Qed.

(** ** What the loop leaves in [dict] and [hasDefault] *)

Lemma fold_parseStep_get (ms : list Match) (acc : Dict * bool) (k : string) :
  dictGet (fst (fold_left parseStep ms acc)) k
  = match lastText k ms with
    | Some t => Some t
    | None => dictGet (fst acc) k
    end.
Proof.
  revert acc; induction ms as [|m ms IH]; intros acc; simpl; [reflexivity|].
  rewrite IH. destruct (lastText k ms); [reflexivity|].
  simpl. rewrite dictGet_dictSet. now destruct (String.eqb (code m) k).
Qed.

Lemma fold_parseStep_flag (ms : list Match) (acc : Dict * bool) :
  snd (fold_left parseStep ms acc)
  = match lastText DEFAULT_LANG ms with
    | Some _ => true
    | None => snd acc
    end.
Proof.
  revert acc; induction ms as [|m ms IH]; intros acc; simpl; [reflexivity|].
  rewrite IH. destruct (lastText DEFAULT_LANG ms); [reflexivity|].
  simpl. now destruct (String.eqb (code m) DEFAULT_LANG).
Qed.

Lemma fold_parseStep_In (ms : list Match) (acc : Dict * bool) (k v : string) :
  In (k, v) (fst (fold_left parseStep ms acc)) ->
  In (k, v) (fst acc) \/ exists m, In m ms /\ code m = k /\ text m = v.
Proof.
  revert acc; induction ms as [|m ms IH]; intros acc; simpl; [auto|].
  intros H; destruct (IH _ H) as [H1|(m' & Hin & Hc & Ht)].
  - simpl in H1. destruct (In_dictSet _ _ _ _ _ H1) as [|[-> ->]]; [auto|].
    right; exists m; auto.
  - right; exists m'; auto.
Qed.

Lemma fold_parseStep_head (ms : list Match) (d : Dict) (h : bool) (k0 v0 : string) :
  exists v' tl', fst (fold_left parseStep ms ((k0, v0) :: d, h)) = (k0, v') :: tl'.
Proof.
  revert d h v0; induction ms as [|m ms IH]; intros d h v0; [simpl; eauto|].
  cbn [fold_left]. unfold parseStep at 2. cbn [fst snd].
  destruct (dictSet_head d k0 v0 (code m) (text m)) as (v' & tl' & ->).
  apply IH.
Qed.

Lemma lastText_In (k : string) (ms : list Match) (t : string) :
  lastText k ms = Some t -> exists m, In m ms /\ code m = k /\ text m = t.
Proof.
  induction ms as [|m ms IH]; simpl; [discriminate|].
  destruct (lastText k ms) as [t'|].
  - intros [= ->]. destruct IH as (m' & ? & ? & ?); eauto.
  - destruct (String.eqb_spec (code m) k); [intros [= <-]; eauto | discriminate].
Qed.

Lemma lastText_app (k : string) (a b : list Match) :
  lastText k (a ++ b)
  = match lastText k b with Some t => Some t | None => lastText k a end.
Proof.
  induction a as [|m a IH]; simpl; [now destruct (lastText k b)|].
  rewrite IH. destruct (lastText k b); reflexivity.
Qed.

(** ** Matches before a tag

    A text that ends where a tag starts has the same matches whether or
    not the tag follows: no attempt of the pattern can use the two opening
    brackets, and the greedy group stops at the first of them. *)

Lemma takeNotBracket_bracket (s r : string) :
  takeNotBracket (s ++ String "[" r) = takeNotBracket s.
Proof.
  induction s as [|c s IH]; simpl; [reflexivity|].
  now rewrite IH.
Qed.

Lemma startsWith_brackets (t : string) :
  startsWith "[[" t = true -> exists r, t = String "[" (String "[" r).
Proof.
  destruct t as [|a [|b r]]; cbn [startsWith]; try discriminate.
  - now rewrite andb_false_r.
  - destruct (Ascii.eqb_spec "[" a) as [<-|]; [|discriminate].
    destruct (Ascii.eqb_spec "[" b) as [<-|]; [|discriminate].
    eauto.
Qed.

Ltac split_conditions :=
  repeat match goal with
  | |- context [Ascii.eqb ?a ?b] => is_var a; destruct (Ascii.eqb a b)
  | |- context [isLower ?a] => is_var a; destruct (isLower a)
  end.

Lemma matchHere_before_tag (i : nat) (c : ascii) (p t : string) :
  startsWith "[[" t = true ->
  matchHere i (String c p ++ t) = matchHere i (String c p).
Proof.
  intros H; destruct (startsWith_brackets t H) as (r & ->).
  destruct p as [|c1 [|c2 [|c3 [|c4 [|c5 tl]]]]].
  6: { simpl. now rewrite takeNotBracket_bracket. }
  all: simpl;
    repeat match goal with
    | |- context [match ?x with EmptyString => _ | String _ _ => _ end] =>
        is_var x; destruct x
    end; try reflexivity; split_conditions; reflexivity.
Qed.

Lemma matchesFrom_before_tag (k i : nat) (pre t : string) :
  startsWith "[[" t = true -> k <= String.length pre ->
  matchesFrom k i (pre ++ t)
  = matchesFrom k i pre ++ matchesFrom 0 (i + String.length pre) t.
Proof.
  intros Ht; revert k i; induction pre as [|c p IH]; intros k i Hk.
  - simpl in *. replace k with 0 by lia. now rewrite Nat.add_0_r.
  - cbn [String.length] in Hk.
    change (String c p ++ t)%string with (String c (p ++ t)).
    cbn [matchesFrom String.length].
    replace (i + S (String.length p)) with (S i + String.length p) by lia.
    destruct k as [|k]; [|apply IH; lia].
    change (String c (p ++ t)) with (String c p ++ t)%string.
    rewrite (matchHere_before_tag i c p t Ht).
    destruct (matchHere i (String c p)) as [m|] eqn:E.
    + destruct (matchHere_length _ _ _ E) as [Hl _]. cbn [String.length] in Hl.
      rewrite IH by lia. reflexivity.
    + apply IH; lia.
Qed.

(** The matches of a text in which a tag with content occurs. *)
Lemma matches_occurrence (pre c t rest : string) :
  isLangCode c = true -> isContent t = true -> stopsHere rest = true ->
  matches (pre ++ tag c ++ t ++ rest)
  = matches pre ++ mkMatch (String.length pre) c t
      :: matchesFrom 0 (String.length pre + 6 + String.length t) rest.
Proof.
  intros Hc Ht Hr. unfold matches.
  assert (Hp : startsWith "[[" (tag c ++ t ++ rest) = true).
  { destruct (isLangCode_inv c Hc) as (a & b & -> & _). reflexivity. }
  rewrite (matchesFrom_before_tag 0 0 pre _ Hp) by lia.
  f_equal. simpl Nat.add.
  pose proof (matchHere_intro (String.length pre) c t rest Hc Ht Hr) as Hm.
  destruct (tag c ++ t ++ rest)%string as [|x tl] eqn:E.
  { discriminate. }
  cbn [matchesFrom]. rewrite Hm. cbn [text]. f_equal.
  rewrite matchesFrom_skip. f_equal; [lia|].
  assert (Hd : drop (6 + String.length t) (String x tl) = rest).
  { rewrite <- E.
    destruct (isLangCode_inv c Hc) as (a & b & -> & _).
    unfold tag; simpl. apply drop_append. }
  exact Hd.
Qed.

Lemma matchHere_first (i : nat) (c : ascii) (s : string) :
  Ascii.eqb c "[" = false -> matchHere i (String c s) = None.
Proof.
  intros H; destruct s as [|c1 [|a [|b [|c4 [|c5 tl]]]]]; simpl;
    try reflexivity.
  now rewrite H.
Qed.

Lemma matchHere_second (i : nat) (c0 c : ascii) (s : string) :
  Ascii.eqb c "[" = false -> matchHere i (String c0 (String c s)) = None.
Proof.
  intros H; destruct s as [|a [|b [|c4 [|c5 tl]]]]; simpl; try reflexivity.
  now rewrite H, andb_false_r.
Qed.

Lemma takeNotBracket_stopped (s : string) :
  stopsHere s = true -> takeNotBracket s = "".
Proof.
  destruct s as [|c s]; simpl; [reflexivity|].
  unfold notBracket; now intros ->.
Qed.

Lemma matchHere_bare_tag (i : nat) (c rest : string) :
  isLangCode c = true -> stopsHere rest = true ->
  matchHere i (tag c ++ rest) = None.
Proof.
  intros Hc Hr. destruct (isLangCode_inv c Hc) as (a & b & -> & Ha & Hb).
  unfold tag; simpl. rewrite (takeNotBracket_stopped rest Hr). simpl.
  now destruct (_ && _).
Qed.

(** A tag without content adds no match. *)
Lemma matches_bare_tag (pre c rest : string) :
  isLangCode c = true -> stopsHere rest = true ->
  matches (pre ++ tag c ++ rest)
  = matches pre ++ matchesFrom 0 (String.length pre + 6) rest.
Proof.
  intros Hc Hr. unfold matches.
  pose proof (matchHere_bare_tag (String.length pre) c rest Hc Hr) as H0.
  destruct (isLangCode_inv c Hc) as (a & b & -> & Ha & Hb).
  assert (Hp : startsWith "[[" (tag (String a (String b "")) ++ rest) = true)
    by reflexivity.
  rewrite (matchesFrom_before_tag 0 0 pre _ Hp) by lia.
  f_equal. simpl Nat.add.
  pose proof (isLower_notBracket a Ha) as Ha'.
  pose proof (isLower_notBracket b Hb) as Hb'.
  unfold tag in *. simpl append in *.
  cbn [matchesFrom]. rewrite H0.
  cbn [matchesFrom]. rewrite (matchHere_second _ _ _ _ Ha').
  cbn [matchesFrom]. rewrite (matchHere_first _ _ _ Ha').
  cbn [matchesFrom]. rewrite (matchHere_first _ _ _ Hb').
  cbn [matchesFrom]. rewrite (matchHere_first _ "]" _ eq_refl).
  cbn [matchesFrom]. rewrite (matchHere_first _ "]" _ eq_refl).
  f_equal; lia.
Qed.

(** ** Matches do not depend on where the text sits *)

Lemma matchHere_shift (i : nat) (s : string) :
  matchHere i s = option_map (shiftIndex i) (matchHere 0 s).
Proof.
  destruct s as [|c0 [|c1 [|a [|b [|c4 [|c5 tl]]]]]]; try reflexivity.
  cbn [matchHere].
  destruct (_ && _); [|reflexivity].
  destruct (isEmpty (takeNotBracket tl)); [reflexivity|].
  unfold shiftIndex; simpl. now rewrite Nat.add_0_r.
Qed.

Lemma matchesFrom_shift (k i : nat) (s : string) :
  matchesFrom k i s = map (shiftIndex i) (matchesFrom k 0 s).
Proof.
  revert k i; induction s as [|c s IH]; intros k i; [reflexivity|].
  assert (Hs : forall k',
    matchesFrom k' (S i) s = map (shiftIndex i) (matchesFrom k' 1 s)).
  { intros k'. rewrite (IH k' (S i)), (IH k' 1), map_map.
    apply map_ext; intros m; unfold shiftIndex; simpl.
    f_equal; lia. }
  cbn [matchesFrom]. destruct k as [|k]; [|apply Hs].
  rewrite (matchHere_shift i).
  destruct (matchHere 0 (String c s)) as [m|]; simpl; [|apply Hs].
  now rewrite Hs.
Qed.

Lemma fold_parseStep_shift (i : nat) (ms : list Match) (acc : Dict * bool) :
  fold_left parseStep (map (shiftIndex i) ms) acc = fold_left parseStep ms acc.
Proof.
  revert acc; induction ms as [|m ms IH]; intros acc; simpl; [reflexivity|].
  apply IH.
Qed.

Lemma lastText_shift (i : nat) (k : string) (ms : list Match) :
  lastText k (map (shiftIndex i) ms) = lastText k ms.
Proof.
  induction ms as [|m ms IH]; simpl; [reflexivity | now rewrite IH].
Qed.

Lemma parse_get (s k : string) : dictGet (parse s) k = lastText k (matches s).
Proof.
  unfold parse; rewrite parseNode_matches, fold_parseStep_get.
  now destruct (lastText k (matches s)).
Qed.

(** Every match is a tag with its content, sitting in the text. *)
Lemma matchesFrom_sound (k i : nat) (s : string) (m : Match) :
  In m (matchesFrom k i s) ->
  isLangCode (code m) = true /\ isContent (text m) = true /\
  exists pre rest,
    s = (pre ++ tag (code m) ++ text m ++ rest)%string /\
    i + String.length pre = index m /\ stopsHere rest = true.
Proof.
  revert k i; induction s as [|c s IH]; intros k i; [intros []|].
  assert (Hs : forall k', In m (matchesFrom k' (S i) s) ->
    isLangCode (code m) = true /\ isContent (text m) = true /\
    exists pre rest,
      String c s = (pre ++ tag (code m) ++ text m ++ rest)%string /\
      i + String.length pre = index m /\ stopsHere rest = true).
  { intros k' H. destruct (IH _ _ H) as (Hc & Ht & pre & rest & E & Hi & Hr).
    repeat split; trivial. exists (String c pre), rest.
    cbn [String.length]. repeat split; trivial; [|lia].
    now rewrite E at 1. }
  cbn [matchesFrom]. destruct k as [|k]; [|apply Hs].
  destruct (matchHere i (String c s)) as [m0|] eqn:E; [|apply Hs].
  intros [<-|H]; [|now apply (Hs _ H)].
  destruct (matchHere_elim _ _ _ E) as (Hi & Hc & Ht & Es & Hr).
  repeat split; trivial.
  exists "", (drop (6 + String.length (text m0)) (String c s)).
  simpl append. repeat split; trivial. simpl; lia.
Qed.

Lemma parse_composition (pre c t rest k : string) :
  isLangCode c = true -> isContent t = true -> stopsHere rest = true ->
  dictGet (parse (pre ++ tag c ++ t ++ rest)) k
  = match dictGet (parse rest) k with
    | Some v => Some v
    | None => if String.eqb c k then Some t else dictGet (parse pre) k
    end.
Proof.
  intros Hc Ht Hr. rewrite !parse_get, (matches_occurrence pre c t rest Hc Ht Hr).
  rewrite lastText_app. cbn [lastText code text].
  rewrite matchesFrom_shift, lastText_shift. fold (matches rest).
  destruct (lastText k (matches rest)); [reflexivity|].
  now destruct (String.eqb c k).
Qed.

Lemma parse_bare_tag (pre c rest k : string) :
  isLangCode c = true -> stopsHere rest = true ->
  dictGet (parse (pre ++ tag c ++ rest)) k
  = match dictGet (parse rest) k with
    | Some v => Some v
    | None => dictGet (parse pre) k
    end.
Proof.
  intros Hc Hr. rewrite !parse_get, (matches_bare_tag pre c rest Hc Hr).
  rewrite lastText_app, matchesFrom_shift, lastText_shift. reflexivity.
Qed.

Lemma parse_values (s k v : string) :
  In (k, v) (parse s) -> isLangCode k = true /\ isContent v = true.
Proof.
  unfold parse; rewrite parseNode_matches; intros H.
  destruct (fold_parseStep_In _ _ _ _ H) as [[]|(m & Hin & <- & <-)].
  destruct (matchesFrom_sound _ _ _ _ Hin) as (Hc & Ht & _); auto.
Qed.

Lemma matches_single (c t : string) :
  isLangCode c = true -> isContent t = true ->
  matches (tag c ++ t) = [mkMatch 0 c t].
Proof.
  intros Hc Ht.
  pose proof (matches_occurrence "" c t "" Hc Ht eq_refl) as H.
  rewrite append_empty_r in H. exact H.
Qed.

Lemma matches_pair (c1 t1 c2 t2 : string) :
  isLangCode c1 = true -> isContent t1 = true ->
  isLangCode c2 = true -> isContent t2 = true ->
  matches (tag c1 ++ t1 ++ tag c2 ++ t2)
  = [mkMatch 0 c1 t1; mkMatch (6 + String.length t1) c2 t2].
Proof.
  intros Hc1 Ht1 Hc2 Ht2.
  assert (Hr : stopsHere (tag c2 ++ t2) = true).
  { destruct (isLangCode_inv c2 Hc2) as (a & b & -> & _); reflexivity. }
  pose proof (matches_occurrence "" c1 t1 _ Hc1 Ht1 Hr) as H.
  change ("" ++ tag c1 ++ t1 ++ tag c2 ++ t2)%string
    with (tag c1 ++ t1 ++ tag c2 ++ t2)%string in H.
  rewrite H. unfold matches at 1. cbn [matchesFrom app String.length Nat.add].
  rewrite matchesFrom_shift. fold (matches (tag c2 ++ t2)).
  rewrite (matches_single c2 t2 Hc2 Ht2). unfold shiftIndex; simpl.
  now rewrite Nat.add_0_r.
Qed.

(** ** The parser *)

Lemma parseLoop_terminates (s : string) : parseLoop s = Some (parseNode s, 0).
Proof. rewrite parseLoop_matches, parseNode_matches; reflexivity. Qed.

Lemma parse_sound (s c t : string) :
  dictGet (parse s) c = Some t ->
  isLangCode c = true /\ isContent t = true /\
  exists pre rest,
    s = (pre ++ tag c ++ t ++ rest)%string /\ stopsHere rest = true.
Proof.
  rewrite parse_get; intros H.
  destruct (lastText_In _ _ _ H) as (m & Hin & <- & <-).
  destruct (matchesFrom_sound _ _ _ _ Hin) as (Hc & Ht & pre & rest & E & _ & Hr).
  eauto 6.
Qed.

Lemma parse_pair (xx yy A B : string) :
  isLangCode xx = true -> isLangCode yy = true ->
  isContent A = true -> isContent B = true ->
  parse (tag xx ++ A ++ tag yy ++ B)
  = if String.eqb xx yy then [(xx, B)] else [(xx, A); (yy, B)].
Proof.
  intros Hx Hy HA HB. unfold parse.
  rewrite parseNode_matches, (matches_pair xx A yy B Hx HA Hy HB).
  reflexivity.
Qed.

(** C1 (amended).  The parse loop always ends, and its dictionary holds
    exactly what the matches of the pattern put there: an entry [c -> t]
    only for a tag [[[c]]] of two lowercase letters followed by the content
    [t], at least one character long, that runs up to the next single
    opening bracket or the end of the string; and for every such
    occurrence the dictionary after it is the dictionary of what follows,
    completed by [c -> t], completed by the dictionary of what precedes.  A
    blob [[[xx]]A[[yy]]B] whose [A] and [B] are such contents gives
    exactly [{xx: A, yy: B}]. *)
Theorem parse_spec :
  (forall s, parseLoop s = Some (parseNode s, 0)) /\
  (forall s c t,
     dictGet (parse s) c = Some t ->
     isLangCode c = true /\ isContent t = true /\
     exists pre rest,
       s = (pre ++ tag c ++ t ++ rest)%string /\ stopsHere rest = true) /\
  (forall pre c t rest k,
     isLangCode c = true -> isContent t = true -> stopsHere rest = true ->
     dictGet (parse (pre ++ tag c ++ t ++ rest)) k
     = match dictGet (parse rest) k with
       | Some v => Some v
       | None => if String.eqb c k then Some t else dictGet (parse pre) k
       end) /\
  (forall xx yy A B,
     isLangCode xx = true -> isLangCode yy = true ->
     isContent A = true -> isContent B = true ->
     parse (tag xx ++ A ++ tag yy ++ B)
     = if String.eqb xx yy then [(xx, B)] else [(xx, A); (yy, B)]).
Proof.
  split; [exact parseLoop_terminates|].
  split; [exact parse_sound|].
  split; [exact parse_composition | exact parse_pair].
Qed.

Lemma parse_spec_witness :
  (dictGet (parse "[[en]]a[b") "en" = Some "a" /\
   exists pre rest,
     "[[en]]a[b" = (pre ++ tag "en" ++ "a" ++ rest)%string /\
     stopsHere rest = true) /\
  dictGet (parse ("x[[en]]old" ++ tag "en" ++ "Hello" ++ "[[ca]]Hola")) "en"
  = Some "Hello" /\
  parse (tag "en" ++ "Hello" ++ tag "ca" ++ "Hola")
  = [("en", "Hello"); ("ca", "Hola")].
Proof.
  destruct parse_spec as (_ & Hsound & Hcomp & Hpair).
  split; [|split].
  - split; [reflexivity|].
    destruct (Hsound "[[en]]a[b" "en" "a" eq_refl) as (_ & _ & H). exact H.
  - exact (Hcomp "x[[en]]old" "en" "Hello" "[[ca]]Hola" "en"
             eq_refl eq_refl eq_refl).
  - exact (Hpair "en" "ca" "Hello" "Hola" eq_refl eq_refl eq_refl eq_refl).
Defined.

(** C1, as stated, fails: the content of a tag does not run up to the next
    [[[] but stops at the first single opening bracket, and a tag whose
    content is empty gets no entry. *)
Lemma parse_counterexample :
  (spec_content "a[b[[fr]]c" = "a[b" /\
   parse (tag "en" ++ "a[b" ++ tag "fr" ++ "c") = [("en", "a"); ("fr", "c")] /\
   parse (tag "en" ++ "a[b" ++ tag "fr" ++ "c")
   <> [("en", "a[b"); ("fr", "c")]) /\
  (spec_content "[[fr]]c" = "" /\
   parse (tag "en" ++ "" ++ tag "fr" ++ "c") = [("fr", "c")] /\
   parse (tag "en" ++ "" ++ tag "fr" ++ "c") <> [("en", ""); ("fr", "c")]).
Proof. repeat split; discriminate. Qed.

(** C9 (amended).  Among the tags of one code that have content, the last
    one wins: whatever precedes it, an occurrence [[[c]]t] after which no
    tag with content bears the code [c] leaves [c -> t] in the dictionary;
    [[[xx]]A[[xx]]B] with contents [A] and [B] gives exactly [{xx: B}]. *)
Theorem parse_last_wins :
  (forall pre c t rest,
     isLangCode c = true -> isContent t = true -> stopsHere rest = true ->
     dictGet (parse rest) c = None ->
     dictGet (parse (pre ++ tag c ++ t ++ rest)) c = Some t) /\
  (forall xx A B,
     isLangCode xx = true -> isContent A = true -> isContent B = true ->
     parse (tag xx ++ A ++ tag xx ++ B) = [(xx, B)]).
Proof.
  split.
  - intros pre c t rest Hc Ht Hr Hn.
    rewrite (parse_composition pre c t rest c Hc Ht Hr), Hn.
    now rewrite String.eqb_refl.
  - intros xx A B Hx HA HB.
    rewrite (parse_pair xx xx A B Hx Hx HA HB). now rewrite String.eqb_refl.
Qed.

Lemma parse_last_wins_witness :
  dictGet (parse ("[[en]]A[[fr]]F" ++ tag "en" ++ "B" ++ "[[en]][[ca]]C")) "en"
  = Some "B" /\
  parse (tag "en" ++ "A" ++ tag "en" ++ "B") = [("en", "B")].
Proof.
  split.
  - exact (proj1 parse_last_wins "[[en]]A[[fr]]F" "en" "B" "[[en]][[ca]]C"
             eq_refl eq_refl eq_refl eq_refl).
  - exact (proj2 parse_last_wins "en" "A" "B" eq_refl eq_refl eq_refl).
Defined.

(** C9, as stated, fails when the last tag of the code has no content: the
    dictionary then keeps the content of the earlier occurrence, here with
    the last tag at the end of the blob and before another tag. *)
Lemma parse_last_wins_counterexample :
  (parse (tag "en" ++ "A" ++ tag "en" ++ "") = [("en", "A")] /\
   parse (tag "en" ++ "A" ++ tag "en" ++ "") <> [("en", "")]) /\
  (dictGet (parse (tag "en" ++ "A" ++ tag "en" ++ "[[fr]]F")) "en" = Some "A" /\
   spec_content "[[fr]]F" = "").
Proof. repeat split. discriminate. Qed.

Lemma parse_drop_bare_tag (c rest : string) :
  isLangCode c = true -> stopsHere rest = true ->
  parse (tag c ++ rest) = parse rest.
Proof.
  intros Hc Hr. unfold parse. rewrite !parseNode_matches.
  pose proof (matches_bare_tag "" c rest Hc Hr) as H.
  change ("" ++ tag c ++ rest)%string with (tag c ++ rest)%string in H.
  rewrite H. unfold matches at 1. cbn [matchesFrom app].
  now rewrite matchesFrom_shift, fold_parseStep_shift.
Qed.

(** C10.  A tag followed at once by an opening bracket or by the end of the
    string puts nothing in the dictionary: the entries are those of the
    text before it and of the text after it, and at the front of a blob the
    tag can be dropped; so a code that gets no entry from elsewhere has
    none.  Every text a dictionary stores is non-empty. *)
Theorem parse_no_empty_content :
  (forall c rest,
     isLangCode c = true -> stopsHere rest = true ->
     parse (tag c ++ rest) = parse rest) /\
  (forall pre c rest k,
     isLangCode c = true -> stopsHere rest = true ->
     dictGet (parse (pre ++ tag c ++ rest)) k
     = match dictGet (parse rest) k with
       | Some v => Some v
       | None => dictGet (parse pre) k
       end) /\
  (forall pre c rest,
     isLangCode c = true -> stopsHere rest = true ->
     dictGet (parse pre) c = None -> dictGet (parse rest) c = None ->
     dictGet (parse (pre ++ tag c ++ rest)) c = None) /\
  (forall s k v, In (k, v) (parse s) -> v <> "").
Proof.
  split; [exact parse_drop_bare_tag|].
  split; [exact parse_bare_tag|]. split.
  - intros pre c rest Hc Hr Hp Hn.
    now rewrite (parse_bare_tag pre c rest c Hc Hr), Hn.
  - intros s k v H. destruct (parse_values s k v H) as [_ Hv].
    now destruct (isContent_inv v Hv).
Qed.

Lemma parse_no_empty_content_witness :
  parse (tag "en" ++ "") = [] /\
  dictGet (parse ("[[fr]]F" ++ tag "en" ++ "[[ca]]C")) "ca" = Some "C" /\
  dictGet (parse ("[[fr]]F" ++ tag "en" ++ "")) "en" = None /\
  "Hola" <> "".
Proof.
  destruct parse_no_empty_content as (H0 & H1 & H2 & H3).
  split; [|split; [|split]].
  - exact (H0 "en" "" eq_refl eq_refl).
  - exact (H1 "[[fr]]F" "en" "[[ca]]C" "ca" eq_refl eq_refl).
  - exact (H2 "[[fr]]F" "en" "" eq_refl eq_refl eq_refl eq_refl).
  - apply (H3 "[[en]]Hello[[ca]]Hola" "ca" "Hola"). right; left; reflexivity.
Defined.

(** ** Lists updated by position *)

Lemma length_replaceAt {A : Type} (n : nat) (x : A) (l : list A) :
  List.length (replaceAt n x l) = List.length l.
Proof.
  revert n; induction l as [|y l IH]; intros [|n]; simpl; auto.
Qed.

Lemma nth_error_replaceAt {A : Type} (n : nat) (x : A) (l : list A) (m : nat) :
  nth_error (replaceAt n x l) m
  = if Nat.eqb n m
    then (if Nat.ltb m (List.length l) then Some x else None)
    else nth_error l m.
Proof.
  revert n m; induction l as [|y l IH]; intros n m.
  - destruct n, m; simpl; try reflexivity. now destruct (Nat.eqb n m).
  - destruct n as [|n], m as [|m]; simpl; try reflexivity.
    rewrite IH. reflexivity.
Qed.

Lemma replaceAt_same {A : Type} (n : nat) (x : A) (l : list A) :
  nth_error l n = Some x -> replaceAt n x l = l.
Proof.
  revert n; induction l as [|y l IH]; intros [|n]; simpl; try discriminate.
  - now intros [= ->].
  - intros H; now rewrite IH.
Qed.

Lemma replaceAt_beyond {A : Type} (n : nat) (x : A) (l : list A) :
  nth_error l n = None -> replaceAt n x l = l.
Proof.
  revert n; induction l as [|y l IH]; intros [|n]; simpl; try discriminate;
    try reflexivity.
  intros H; now rewrite IH.
Qed.

Lemma positions_bounds {A : Type} (p : A -> bool) (k : nat) (l : list A) (n : nat) :
  In n (positions p k l) -> k <= n < k + List.length l.
Proof.
  revert k; induction l as [|x l IH]; intros k; simpl; [tauto|].
  intros H; apply in_app_or in H; destruct H as [H|H].
  - destruct (p x); simpl in H; [destruct H as [<-|[]]; lia | tauto].
  - apply IH in H; lia.
Qed.

Lemma positions_NoDup {A : Type} (p : A -> bool) (k : nat) (l : list A) :
  NoDup (positions p k l).
Proof.
  revert k; induction l as [|x l IH]; intros k; simpl; [constructor|].
  destruct (p x); simpl; [|apply IH].
  constructor; [|apply IH].
  intros H; apply positions_bounds in H; lia.
Qed.

Lemma positions_map {A : Type} (p : A -> bool) (f : A -> A) (k : nat) (l : list A) :
  (forall x, p (f x) = p x) -> positions p k (map f l) = positions p k l.
Proof.
  intros H; revert k; induction l as [|x l IH]; intros k; simpl; [reflexivity|].
  now rewrite H, IH.
Qed.

(** ** The text pass of [applyLang] *)

Lemma updateItem_frame (lang : string) (w : World) (it : Item) :
  search (updateItem lang w it) = search w /\
  navigator (updateItem lang w it) = navigator w /\
  storage (updateItem lang w it) = storage w /\
  elements (updateItem lang w it) = elements w.
Proof.
  unfold updateItem. destruct (nth_error (textNodes w) (node it)); auto.
  destruct (String.eqb s _); auto.
Qed.

Lemma updateItem_textNodes (lang : string) (w : World) (it : Item) :
  textNodes (updateItem lang w it)
  = replaceAt (node it) (newText lang (dict it)) (textNodes w).
Proof.
  unfold updateItem. destruct (nth_error (textNodes w) (node it)) as [cur|] eqn:E.
  - destruct (String.eqb_spec cur (newText lang (dict it))) as [->|]; simpl.
    + symmetry; now apply replaceAt_same.
    + reflexivity.
  - symmetry; now apply replaceAt_beyond.
Qed.

Lemma textPass_frame (lang : string) (gd : list Item) (w : World) :
  search (fold_left (updateItem lang) gd w) = search w /\
  navigator (fold_left (updateItem lang) gd w) = navigator w /\
  storage (fold_left (updateItem lang) gd w) = storage w /\
  elements (fold_left (updateItem lang) gd w) = elements w.
Proof.
  revert w; induction gd as [|it gd IH]; intros w; simpl; [auto|].
  destruct (IH (updateItem lang w it)) as (-> & -> & -> & ->).
  apply updateItem_frame.
Qed.

Lemma textPass_textNodes (lang : string) (gd : list Item) (w : World) :
  textNodes (fold_left (updateItem lang) gd w)
  = textsAfter lang gd (textNodes w).
Proof.
  unfold textsAfter; revert w; induction gd as [|it gd IH]; intros w; simpl;
    [reflexivity|].
  now rewrite IH, updateItem_textNodes.
Qed.

Lemma length_textsAfter (lang : string) (gd : list Item) (values : list string) :
  List.length (textsAfter lang gd values) = List.length values.
Proof.
  unfold textsAfter; revert values; induction gd as [|it gd IH]; intros values;
    simpl; [reflexivity|].
  now rewrite IH, length_replaceAt.
Qed.

Lemma nth_error_textsAfter (lang : string) (gd : list Item) (values : list string)
    (n : nat) :
  nth_error (textsAfter lang gd values) n
  = match lastDict n gd with
    | Some d =>
        if Nat.ltb n (List.length values) then Some (newText lang d) else None
    | None => nth_error values n
    end.
Proof.
  unfold textsAfter; revert values; induction gd as [|it gd IH]; intros values;
    simpl; [reflexivity|].
  rewrite IH, length_replaceAt. destruct (lastDict n gd); [reflexivity|].
  rewrite nth_error_replaceAt. now destruct (Nat.eqb (node it) n).
Qed.

Lemma textsAfter_idempotent (lang : string) (gd : list Item) (values : list string) :
  textsAfter lang gd (textsAfter lang gd values) = textsAfter lang gd values.
Proof.
  apply nth_error_ext; intros n.
  rewrite (nth_error_textsAfter lang gd (textsAfter lang gd values)).
  rewrite length_textsAfter.
  destruct (lastDict n gd) eqn:E; [|reflexivity].
  now rewrite nth_error_textsAfter, E.
Qed.

Lemma lastDict_NoDup (gd : list Item) (it : Item) :
  NoDup (map node gd) -> In it gd -> lastDict (node it) gd = Some (dict it).
Proof.
  induction gd as [|x gd IH]; simpl; [tauto|].
  intros Hnd Hin; inversion Hnd as [|? ? Hx Hnd']; subst.
  destruct Hin as [->|Hin].
  - destruct (lastDict (node it) gd) as [d|] eqn:E.
    + exfalso; apply Hx.
      clear -E. induction gd as [|y gd IH]; simpl in *; [discriminate|].
      destruct (lastDict (node it) gd); [right; now apply IH|].
      destruct (Nat.eqb_spec (node y) (node it)); [now left | discriminate].
    + now rewrite Nat.eqb_refl.
  - now rewrite (IH Hnd' Hin).
Qed.

Lemma lastDict_None (gd : list Item) (n : nat) :
  ~ In n (map node gd) -> lastDict n gd = None.
Proof.
  induction gd as [|x gd IH]; simpl; [reflexivity|].
  intros H. rewrite IH by tauto.
  destruct (Nat.eqb_spec (node x) n); [tauto | reflexivity].
Qed.

Lemma newText_spec (lang : string) (d : Dict) :
  Forall (fun kv => snd kv <> "") d -> newText lang d = spec_text lang d.
Proof.
  intros Hd. unfold newText, spec_text, jsOr.
  assert (Hv : forall k v, dictGet d k = Some v -> isEmpty v = false).
  { intros k v H. apply dictGet_In in H.
    rewrite Forall_forall in Hd. apply isEmpty_false. exact (Hd _ H). }
  destruct (dictGet d lang) as [t|] eqn:E1; simpl.
  - rewrite (Hv _ _ E1); simpl. now rewrite (Hv _ _ E1).
  - destruct (dictGet d DEFAULT_LANG) as [t|] eqn:E2; simpl; [|reflexivity].
    now rewrite (Hv _ _ E2).
Qed.

Lemma textPass_log (lang : string) (gd : list Item) (w : World) :
  NoDup (map node gd) ->
  log (fold_left (updateItem lang) gd w)
  = log w ++ textWrites (newText lang) (textNodes w) gd.
Proof.
  unfold textWrites; revert w; induction gd as [|it gd IH]; intros w Hnd.
  - simpl. now rewrite app_nil_r.
  - inversion Hnd as [|? ? Hx Hnd']; subst.
    cbn [fold_left flat_map]. rewrite (IH _ Hnd').
    rewrite updateItem_textNodes.
    assert (Hs : forall l,
      ~ In (node it) (map node l) ->
      flat_map
        (fun it0 =>
           match nth_error (replaceAt (node it) (newText lang (dict it))
                              (textNodes w)) (node it0) with
           | Some current =>
               if String.eqb current (newText lang (dict it0)) then []
               else [SetNodeValue (node it0) (newText lang (dict it0))]
           | None => []
           end) l
      = flat_map
        (fun it0 =>
           match nth_error (textNodes w) (node it0) with
           | Some current =>
               if String.eqb current (newText lang (dict it0)) then []
               else [SetNodeValue (node it0) (newText lang (dict it0))]
           | None => []
           end) l).
    { induction l as [|y l IHl]; simpl; [reflexivity|]. intros H.
      rewrite IHl by tauto. rewrite nth_error_replaceAt.
      destruct (Nat.eqb_spec (node it) (node y)) as [e|]; [|reflexivity].
      exfalso; apply H; left; now symmetry. }
    rewrite (Hs gd Hx), app_assoc. f_equal.
    unfold updateItem.
    destruct (nth_error (textNodes w) (node it)) as [cur|];
      [|now rewrite app_nil_r].
    destruct (String.eqb cur (newText lang (dict it)));
      [now rewrite app_nil_r | reflexivity].
Qed.

(** ** The visibility passes of [applyLang] *)

Lemma replaceAt_middle {A : Type} (l1 : list A) (x y : A) (l2 : list A) :
  replaceAt (List.length l1) y (l1 ++ x :: l2) = l1 ++ y :: l2.
Proof. induction l1 as [|z l1 IH]; simpl; [reflexivity | now rewrite IH]. Qed.

Lemma nth_error_middle {A : Type} (l1 : list A) (x : A) (l2 : list A) :
  nth_error (l1 ++ x :: l2) (List.length l1) = Some x.
Proof. induction l1 as [|z l1 IH]; simpl; [reflexivity | exact IH]. Qed.

Lemma displayPass_frame (v : string) (idxs : list nat) (w : World) :
  search (fold_left (setDisplay v) idxs w) = search w /\
  navigator (fold_left (setDisplay v) idxs w) = navigator w /\
  storage (fold_left (setDisplay v) idxs w) = storage w /\
  textNodes (fold_left (setDisplay v) idxs w) = textNodes w /\
  log (fold_left (setDisplay v) idxs w)
  = log w ++ map (fun i => SetDisplay i v) idxs.
Proof.
  revert w; induction idxs as [|i idxs IH]; intros w; simpl.
  - now rewrite app_nil_r.
  - destruct (IH (setDisplay v w i)) as (-> & -> & -> & -> & ->).
    simpl. now rewrite <- app_assoc.
Qed.

Lemma displayPass_elements_from (v : string) (p : Element -> bool)
    (l1 l2 : list Element) (w : World) :
  elements w = l1 ++ l2 ->
  elements (fold_left (setDisplay v) (positions p (List.length l1) l2) w)
  = l1 ++ map (fun e => if p e then mkElement (autolang e) v else e) l2.
Proof.
  revert l1 w; induction l2 as [|x l2 IH]; intros l1 w E; simpl.
  - exact E.
  - rewrite fold_left_app.
    destruct (p x); simpl.
    + replace (S (List.length l1))
        with (List.length (l1 ++ [mkElement (autolang x) v]))
        by (rewrite length_app; simpl; lia).
      rewrite IH; [now rewrite <- app_assoc|].
      simpl. rewrite E, nth_error_middle, replaceAt_middle.
      now rewrite <- app_assoc.
    + replace (S (List.length l1)) with (List.length (l1 ++ [x]))
        by (rewrite length_app; simpl; lia).
      rewrite IH; [now rewrite <- app_assoc|].
      rewrite E. now rewrite <- app_assoc.
Qed.

Lemma displayPass_elements (v : string) (p : Element -> bool) (w : World) :
  elements (fold_left (setDisplay v) (positions p 0 (elements w)) w)
  = map (fun e => if p e then mkElement (autolang e) v else e) (elements w).
Proof. exact (displayPass_elements_from v p [] (elements w) w eq_refl). Qed.

Lemma visibility_two_passes (lang : string) (els : list Element) :
  map (fun e => if autolangIs lang e then mkElement (autolang e) "" else e)
      (map (fun e => if hasAutolang e then mkElement (autolang e) "none" else e)
           els)
  = map (spec_visibility lang) els.
Proof.
  rewrite map_map. apply map_ext; intros [a d].
  unfold spec_visibility, autolangIs, hasAutolang; simpl.
  destruct a as [a|]; simpl; [|reflexivity].
  now destruct (String.eqb a lang).
Qed.

Lemma spec_visibility_idempotent (lang : string) (el : Element) :
  spec_visibility lang (spec_visibility lang el) = spec_visibility lang el.
Proof.
  destruct el as [a d]. unfold spec_visibility, autolangIs, hasAutolang; simpl.
  destruct a as [a|]; simpl; [|reflexivity].
  destruct (String.eqb a lang) eqn:E; simpl; now rewrite E.
Qed.

(** ** [applyLang] *)

Section Apply.

Variable qsa : string -> list Element -> option (list nat).

Lemma applyLang_textNodes (m : Module) (w : World) :
  textNodes (fst (applyLang qsa m w))
  = textsAfter (currentLang m) (globalDict m) (textNodes w).
Proof.
  unfold applyLang.
  destruct (qsa "*[autolang]" _) as [marked|]; simpl;
    [|apply textPass_textNodes].
  destruct (qsa (autolangSelector (currentLang m)) _) as [shown|]; simpl.
  - destruct (displayPass_frame "" shown
                (fold_left (setDisplay "none") marked
                   (fold_left (updateItem (currentLang m)) (globalDict m) w)))
      as (_ & _ & _ & -> & _).
    destruct (displayPass_frame "none" marked
                (fold_left (updateItem (currentLang m)) (globalDict m) w))
      as (_ & _ & _ & -> & _).
    apply textPass_textNodes.
  - destruct (displayPass_frame "none" marked
                (fold_left (updateItem (currentLang m)) (globalDict m) w))
      as (_ & _ & _ & -> & _).
    apply textPass_textNodes.
Qed.

Lemma applyLang_storage (m : Module) (w : World) :
  storage (fst (applyLang qsa m w)) = storage w /\
  snd (applyLang qsa m w) <> Throw SecurityError.
Proof.
  unfold applyLang.
  pose proof (textPass_frame (currentLang m) (globalDict m) w) as (_ & _ & Hs & _).
  destruct (qsa "*[autolang]" _) as [marked|]; simpl;
    [|split; [exact Hs | discriminate]].
  pose proof (displayPass_frame "none" marked
                (fold_left (updateItem (currentLang m)) (globalDict m) w))
    as (_ & _ & Hs2 & _).
  destruct (qsa (autolangSelector (currentLang m)) _) as [shown|]; simpl.
  - destruct (displayPass_frame "" shown
                (fold_left (setDisplay "none") marked
                   (fold_left (updateItem (currentLang m)) (globalDict m) w)))
      as (_ & _ & -> & _).
    rewrite Hs2, Hs. split; [reflexivity | discriminate].
  - rewrite Hs2, Hs. split; [reflexivity | discriminate].
Qed.

Hypothesis engine_ok : EngineOk qsa.

Lemma applyLang_ok (m : Module) (w : World) :
  isLangCode (currentLang m) = true ->
  snd (applyLang qsa m w) = Normal tt /\
  search (fst (applyLang qsa m w)) = search w /\
  navigator (fst (applyLang qsa m w)) = navigator w /\
  storage (fst (applyLang qsa m w)) = storage w /\
  textNodes (fst (applyLang qsa m w))
  = textsAfter (currentLang m) (globalDict m) (textNodes w) /\
  elements (fst (applyLang qsa m w))
  = map (spec_visibility (currentLang m)) (elements w) /\
  log (fst (applyLang qsa m w))
  = log (fold_left (updateItem (currentLang m)) (globalDict m) w)
    ++ map (fun i => SetDisplay i "none") (positions hasAutolang 0 (elements w))
    ++ map (fun i => SetDisplay i "")
         (positions (autolangIs (currentLang m)) 0 (elements w)).
Proof.
  intros Hl. destruct engine_ok as [Hall Heq].
  pose proof (applyLang_textNodes m w) as Ht.
  unfold applyLang in *.
  set (w1 := fold_left (updateItem (currentLang m)) (globalDict m) w) in *.
  destruct (textPass_frame (currentLang m) (globalDict m) w)
    as (Hs1 & Hn1 & Hst1 & He1). fold w1 in Hs1, Hn1, Hst1, He1.
  rewrite Hall in *.
  set (w2 := fold_left (setDisplay "none") (positions hasAutolang 0 (elements w1)) w1)
    in *.
  destruct (displayPass_frame "none" (positions hasAutolang 0 (elements w1)) w1)
    as (Hs2 & Hn2 & Hst2 & Ht2 & Hl2). fold w2 in Hs2, Hn2, Hst2, Ht2, Hl2.
  pose proof (displayPass_elements "none" hasAutolang w1) as He2. fold w2 in He2.
  rewrite (Heq _ _ Hl) in *.
  set (w3 := fold_left (setDisplay "")
               (positions (autolangIs (currentLang m)) 0 (elements w2)) w2) in *.
  destruct (displayPass_frame ""
              (positions (autolangIs (currentLang m)) 0 (elements w2)) w2)
    as (Hs3 & Hn3 & Hst3 & Ht3 & Hl3). fold w3 in Hs3, Hn3, Hst3, Ht3, Hl3.
  pose proof (displayPass_elements "" (autolangIs (currentLang m)) w2) as He3.
  fold w3 in He3.
  cbn [fst snd] in *.
  assert (Hp : positions (autolangIs (currentLang m)) 0 (elements w2)
               = positions (autolangIs (currentLang m)) 0 (elements w)).
  { rewrite He2, He1. apply positions_map. intros [a d].
    unfold autolangIs, hasAutolang; simpl. now destruct a. }
  repeat split; try congruence.
  - rewrite He3, He2, He1. apply visibility_two_passes.
  - rewrite Hl3, Hl2, Hp, He1. now rewrite <- app_assoc.
Qed.

End Apply.

Lemma textWrites_ext (f g : Dict -> string) (values : list string) (gd : list Item) :
  (forall it, In it gd -> f (dict it) = g (dict it)) ->
  textWrites f values gd = textWrites g values gd.
Proof.
  unfold textWrites; induction gd as [|it gd IH]; intros H; simpl; [reflexivity|].
  rewrite (H it) by now left. rewrite IH; [reflexivity|].
  intros; apply H; now right.
Qed.

Lemma textWrites_settled (lang : string) (gd : list Item) (values : list string) :
  NoDup (map node gd) ->
  textWrites (newText lang) (textsAfter lang gd values) gd = [].
Proof.
  intros Hnd. unfold textWrites.
  assert (H : forall it, In it gd ->
    match nth_error (textsAfter lang gd values) (node it) with
    | Some current =>
        if String.eqb current (newText lang (dict it)) then []
        else [SetNodeValue (node it) (newText lang (dict it))]
    | None => []
    end = []).
  { intros it Hin. rewrite nth_error_textsAfter, (lastDict_NoDup gd it Hnd Hin).
    destruct (Nat.ltb _ _); [now rewrite String.eqb_refl | reflexivity]. }
  revert H; generalize (textsAfter lang gd values); intros vs.
  induction gd as [|it gd IH]; intros H; simpl; [reflexivity|].
  rewrite (H it) by now left. simpl. apply IH.
  - now inversion Hnd.
  - intros; apply H; now right.
Qed.

Lemma refEngine_ok : EngineOk refEngine.
Proof.
  split; [reflexivity|].
  intros lang els Hl.
  destruct (isLangCode_inv lang Hl) as (a & b & -> & Ha & Hb).
  unfold refEngine, autolangSelector, dquote.
  cbn -[isLower positions autolangIs]. rewrite Ha, Hb.
  cbn -[positions autolangIs]. reflexivity.
Qed.

(** C3.  On a well-formed index and for a language code, [applyLang] ends
    normally; every indexed node then shows [dict[lang]] if present, else
    [dict[defaultLang]], else the empty string, and the other nodes are
    left as they were; a node is written only when its text differs from
    that; every element with the [autolang] attribute is first hidden, then
    exactly those whose attribute equals [lang] are revealed, and the
    elements without the attribute are left alone. *)
Theorem applyLang_spec (qsa : string -> list Element -> option (list nat))
    (m : Module) (w : World) :
  EngineOk qsa ->
  isLangCode (currentLang m) = true ->
  IndexOk (globalDict m) (textNodes w) ->
  snd (applyLang qsa m w) = Normal tt /\
  (forall it, In it (globalDict m) ->
     nth_error (textNodes (fst (applyLang qsa m w))) (node it)
     = Some (spec_text (currentLang m) (dict it))) /\
  (forall n, ~ In n (map node (globalDict m)) ->
     nth_error (textNodes (fst (applyLang qsa m w))) n
     = nth_error (textNodes w) n) /\
  elements (fst (applyLang qsa m w))
  = map (spec_visibility (currentLang m)) (elements w) /\
  log (fst (applyLang qsa m w))
  = log w
    ++ textWrites (spec_text (currentLang m)) (textNodes w) (globalDict m)
    ++ map (fun i => SetDisplay i "none") (positions hasAutolang 0 (elements w))
    ++ map (fun i => SetDisplay i "")
         (positions (autolangIs (currentLang m)) 0 (elements w)).
Proof.
  intros Hq Hl [Hnd Hok].
  destruct (applyLang_ok qsa Hq m w Hl) as (Hr & _ & _ & _ & Ht & He & Hlog).
  rewrite Forall_forall in Hok.
  split; [exact Hr|]. split; [|split; [|split; [exact He|]]].
  - intros it Hin. destruct (Hok it Hin) as [Hlt Hv].
    rewrite Ht, nth_error_textsAfter, (lastDict_NoDup _ _ Hnd Hin).
    apply Nat.ltb_lt in Hlt. rewrite Hlt. now rewrite (newText_spec _ _ Hv).
  - intros n Hn. now rewrite Ht, nth_error_textsAfter, (lastDict_None _ _ Hn).
  - rewrite Hlog, (textPass_log _ _ _ Hnd), <- app_assoc. do 2 f_equal.
    apply textWrites_ext. intros it Hin.
    destruct (Hok it Hin) as [_ Hv]. now apply newText_spec.
Qed.

Lemma greetingIndex_ok : IndexOk greetingIndex (textNodes greetingWorld).
Proof.
  split.
  - simpl. repeat constructor; simpl; intuition discriminate.
  - repeat constructor; simpl; try lia; discriminate.
Qed.

Lemma applyLang_spec_witness :
  (isLangCode "en" = true /\
   Forall (fun it => node it < 3) greetingIndex) /\
  snd (applyLang refEngine (mkModule false "en" greetingIndex) greetingWorld)
  = Normal tt /\
  textNodes
    (fst (applyLang refEngine (mkModule false "en" greetingIndex) greetingWorld))
  = ["Hello"; "plain"; "Adeu"] /\
  nth_error
    (textNodes
       (fst (applyLang refEngine (mkModule false "en" greetingIndex)
               greetingWorld))) 0
  = Some "Hello" /\
  elements
    (fst (applyLang refEngine (mkModule false "en" greetingIndex) greetingWorld))
  = [mkElement (Some "en") ""; mkElement None "block";
     mkElement (Some "ca") "none"; mkElement (Some "") "none"] /\
  log (fst (applyLang refEngine (mkModule false "en" greetingIndex) greetingWorld))
  = [SetNodeValue 0 "Hello"; SetDisplay 0 "none"; SetDisplay 2 "none";
     SetDisplay 3 "none"; SetDisplay 0 ""].
Proof.
  destruct (applyLang_spec refEngine (mkModule false "en" greetingIndex)
              greetingWorld refEngine_ok eq_refl greetingIndex_ok)
    as (Hr & Ht & _ & He & Hlog).
  split; [split; [reflexivity | repeat constructor]|].
  split; [exact Hr|]. split; [reflexivity|].
  split; [exact (Ht (mkItem 0 [("ca", "Hola"); ("en", "Hello")])
                    (or_introl eq_refl))|].
  split; [exact He | exact Hlog].
Defined.

(** C4.  For a language code, a second [applyLang] in a row changes
    nothing: the node values and the elements, hence every indexed node's
    text and every marked element's visibility, are those the first call
    left; on an index without repeated node the second call does not even
    write a node. *)
Theorem applyLang_idempotent (qsa : string -> list Element -> option (list nat))
    (m : Module) (w : World) :
  EngineOk qsa ->
  isLangCode (currentLang m) = true ->
  snd (applyLang qsa m w) = Normal tt /\
  snd (applyLang qsa m (fst (applyLang qsa m w))) = Normal tt /\
  textNodes (fst (applyLang qsa m (fst (applyLang qsa m w))))
  = textNodes (fst (applyLang qsa m w)) /\
  elements (fst (applyLang qsa m (fst (applyLang qsa m w))))
  = elements (fst (applyLang qsa m w)) /\
  (NoDup (map node (globalDict m)) ->
   forall n v,
     ~ In (SetNodeValue n v)
          (skipn (List.length (log (fst (applyLang qsa m w))))
             (log (fst (applyLang qsa m (fst (applyLang qsa m w))))))).
Proof.
  intros Hq Hl.
  destruct (applyLang_ok qsa Hq m w Hl) as (Hr & _ & _ & _ & Ht & He & _).
  destruct (applyLang_ok qsa Hq m (fst (applyLang qsa m w)) Hl)
    as (Hr2 & _ & _ & _ & Ht2 & He2 & Hlog2).
  split; [exact Hr|]. split; [exact Hr2|]. split; [|split].
  - rewrite Ht2, Ht. apply textsAfter_idempotent.
  - rewrite He2, He, map_map. apply map_ext; intros el.
    apply spec_visibility_idempotent.
  - intros Hnd n v.
    rewrite Hlog2, (textPass_log _ _ _ Hnd), Ht.
    rewrite (textWrites_settled _ _ _ Hnd), app_nil_r.
    rewrite skipn_app, skipn_all, Nat.sub_diag. simpl.
    intros Hin; apply in_app_or in Hin; destruct Hin as [Hin|Hin];
      apply in_map_iff in Hin; destruct Hin as (i & Hi & _); discriminate.
Qed.

Lemma applyLang_idempotent_witness :
  isLangCode "ca" = true /\
  textNodes
    (fst (applyLang refEngine (mkModule false "ca" greetingIndex)
            (fst (applyLang refEngine (mkModule false "ca" greetingIndex)
                    greetingWorld))))
  = textNodes
      (fst (applyLang refEngine (mkModule false "ca" greetingIndex) greetingWorld))
  /\
  elements
    (fst (applyLang refEngine (mkModule false "ca" greetingIndex)
            (fst (applyLang refEngine (mkModule false "ca" greetingIndex)
                    greetingWorld))))
  = elements
      (fst (applyLang refEngine (mkModule false "ca" greetingIndex) greetingWorld))
  /\
  ~ In (SetNodeValue 0 "Hola")
       (skipn
          (List.length
             (log (fst (applyLang refEngine (mkModule false "ca" greetingIndex)
                          greetingWorld))))
          (log (fst (applyLang refEngine (mkModule false "ca" greetingIndex)
                       (fst (applyLang refEngine
                               (mkModule false "ca" greetingIndex)
                               greetingWorld)))))).
Proof.
  destruct (applyLang_idempotent refEngine (mkModule false "ca" greetingIndex)
              greetingWorld refEngine_ok eq_refl)
    as (_ & _ & Ht & He & Hlog).
  split; [reflexivity|]. split; [exact Ht|]. split; [exact He|].
  apply Hlog. exact (proj1 greetingIndex_ok).
Defined.

(** ** Index build *)

Lemma parseNode_flag (s : string) :
  snd (parseNode s) = true <-> dictGet (parse s) DEFAULT_LANG <> None.
Proof.
  rewrite parse_get, parseNode_matches, fold_parseStep_flag.
  destruct (lastText DEFAULT_LANG (matches s)); simpl; split;
    congruence.
Qed.

Lemma parse_head (s k v : string) (tl : Dict) :
  parse s = (k, v) :: tl ->
  exists m ms, matches s = m :: ms /\ code m = k.
Proof.
  unfold parse; rewrite parseNode_matches.
  destruct (matches s) as [|m ms]; [discriminate|].
  cbn [fold_left]. unfold parseStep at 2. cbn [fst snd dictSet].
  match goal with
  | |- fst (fold_left parseStep ms (_, ?h)) = _ -> _ =>
      destruct (fold_parseStep_head ms [] h (code m) (text m))
        as (v' & tl' & E)
  end.
  intros H.
  assert (H' : (code m, v') :: tl' = (k, v) :: tl)
    by (etransitivity; [symmetry; exact E | exact H]).
  injection H' as <- _ _. eauto.
Qed.

Lemma Indexed_more (values : list string) (lg lg' : list Event) (it : Item) :
  Indexed values lg it -> Indexed values (lg ++ lg') it.
Proof.
  intros (nv & Hn & Hp & [H|(Hf & k & v & tl & E & Hd & Hin)]);
    exists nv; repeat split; auto.
  right; split; [exact Hf|]. exists k, v, tl; repeat split; auto.
  apply in_or_app; now left.
Qed.

Lemma indexNode_Indexed (values : list string) (acc : list Item * list Event)
    (n : nat) :
  Forall (Indexed values (snd acc)) (fst acc) ->
  Forall (Indexed values (snd (indexNode values acc n)))
         (fst (indexNode values acc n)).
Proof.
  intros Hacc. unfold indexNode.
  destruct (nth_error values n) as [nv|] eqn:En; [|exact Hacc].
  destruct (parseNode nv) as [d h] eqn:Ep.
  assert (Hd : parse nv = d) by (unfold parse; now rewrite Ep).
  assert (Hh : snd (parseNode nv) = h) by now rewrite Ep.
  destruct (Nat.ltb_spec 0 (List.length (keys d))) as [Hk|_]; [|exact Hacc].
  assert (Hne : d <> []) by (destruct d; [simpl in Hk; lia | discriminate]).
  destruct h; cbn [negb fst snd].
  - apply Forall_app; split; [exact Hacc|].
    repeat constructor. exists nv; simpl. rewrite Hd. auto.
  - destruct d as [|[k v] tl]; [congruence|].
    assert (Hkv : isLangCode k = true).
    { apply (parse_values nv k v). rewrite Hd; now left. }
    destruct (isLangCode_inv k Hkv) as (a & b & -> & _).
    cbn [isEmpty fst snd].
    apply Forall_app; split.
    + eapply Forall_impl; [|exact Hacc]. intros it. apply Indexed_more.
    + repeat constructor. exists nv; simpl. rewrite Hd.
      repeat split; auto. right; split; [exact Hh|].
      exists (String a (String b "")), v, tl. repeat split.
      apply in_or_app; right; now left.
Qed.

Lemma fold_indexNode_Indexed (values : list string) (ns : list nat)
    (acc : list Item * list Event) :
  Forall (Indexed values (snd acc)) (fst acc) ->
  Forall (Indexed values (snd (fold_left (indexNode values) ns acc)))
         (fst (fold_left (indexNode values) ns acc)).
Proof.
  revert acc; induction ns as [|n ns IH]; intros acc H; simpl; [exact H|].
  apply IH. now apply indexNode_Indexed.
Qed.

Lemma indexNode_nodes (values : list string) (acc : list Item * list Event)
    (n : nat) :
  map node (fst (indexNode values acc n)) = map node (fst acc)
  \/ map node (fst (indexNode values acc n)) = map node (fst acc) ++ [n].
Proof.
  unfold indexNode.
  destruct (nth_error values n) as [nv|]; [|now left].
  destruct (parseNode nv) as [d h].
  destruct (Nat.ltb 0 (List.length (keys d))); [|now left].
  right. destruct h; cbn [negb fst]; [rewrite map_app; reflexivity|].
  destruct d as [|[k v] tl]; cbn [fst]; [rewrite map_app; reflexivity|].
  destruct (isEmpty k); cbn [fst]; rewrite map_app; reflexivity.
Qed.

Lemma fold_indexNode_nodes (values : list string) (ns : list nat)
    (acc : list Item * list Event) :
  exists ns',
    map node (fst (fold_left (indexNode values) ns acc))
    = map node (fst acc) ++ ns' /\
    (forall n, In n ns' -> In n ns) /\ (NoDup ns -> NoDup ns').
Proof.
  revert acc; induction ns as [|n ns IH]; intros acc; simpl.
  - exists []. rewrite app_nil_r. repeat split; auto.
  - destruct (IH (indexNode values acc n)) as (ns' & E & Hin & Hnd).
    destruct (indexNode_nodes values acc n) as [H|H]; rewrite H in E.
    + exists ns'. repeat split; auto.
      intros Hn; apply Hnd. now inversion Hn.
    + exists (n :: ns'). rewrite E, <- app_assoc. repeat split.
      * intros x [<-|Hx]; auto.
      * intros Hn; inversion Hn as [|? ? Hx Hn']; subst.
        constructor; auto.
Qed.

Lemma Indexed_values (values : list string) (lg : list Event) (it : Item) :
  Indexed values lg it -> Forall (fun kv => snd kv <> "") (dict it).
Proof.
  intros (nv & _ & _ & H). apply Forall_forall; intros [k v] Hin; simpl.
  assert (Hp : forall k' v', In (k', v') (parse nv) -> v' <> "").
  { intros k' v' H'. destruct (parse_values _ _ _ H') as [_ Hc].
    now destruct (isContent_inv _ Hc). }
  destruct H as [[_ E]|(_ & k0 & v0 & tl & E & Ed & _)].
  - rewrite E in Hin. eauto.
  - rewrite Ed in Hin. destruct (In_dictSet _ _ _ _ _ Hin) as [H'|[_ ->]].
    + eauto.
    + apply (Hp k0). rewrite E; now left.
Qed.

Lemma buildIndex_Indexed (values : list string) (lg : list Event) :
  Forall (Indexed values (snd (buildIndex values ([], lg))))
         (fst (buildIndex values ([], lg))).
Proof. apply fold_indexNode_Indexed; constructor. Qed.

Lemma buildIndex_ok (values : list string) (lg : list Event) :
  IndexOk (fst (buildIndex values ([], lg))) values.
Proof.
  unfold IndexOk, buildIndex.
  destruct (fold_indexNode_nodes values (getTextNodes values) ([], lg))
    as (ns' & E & Hin & Hnd).
  simpl in E. split.
  - rewrite E. apply Hnd, positions_NoDup.
  - pose proof (buildIndex_Indexed values lg) as HI. unfold buildIndex in HI.
    rewrite Forall_forall in *. intros it Hit. split.
    + assert (H : In (node it) ns') by (rewrite <- E; now apply in_map).
      apply Hin, positions_bounds in H. simpl in H; lia.
    + exact (Indexed_values _ _ _ (HI it Hit)).
Qed.

Lemma positions_nth {A : Type} (p : A -> bool) (k : nat) (l : list A) (n : nat) :
  In n (positions p k l) ->
  exists x, nth_error l (n - k) = Some x /\ p x = true.
Proof.
  revert k; induction l as [|y l IH]; intros k; simpl; [tauto|].
  intros H; apply in_app_or in H; destruct H as [H|H].
  - destruct (p y) eqn:E; simpl in H; [|tauto].
    destruct H as [<-|[]]. rewrite Nat.sub_diag. exists y; auto.
  - pose proof (positions_bounds _ _ _ _ H) as Hb.
    destruct (IH _ H) as (x & Hx & Hp). exists x. split; [|exact Hp].
    replace (n - k) with (S (n - S k)) by lia. exact Hx.
Qed.

Lemma test_matches (v : string) :
  fst (test 0 v) = true <-> matches v <> [].
Proof.
  unfold test, exec, matches. cbn [Nat.ltb Nat.leb drop].
  destruct (firstMatch 0 v) as [m|] eqn:E; cbn [fst].
  - destruct (firstMatch_some _ _ _ E) as (_ & _ & ->). split; congruence.
  - rewrite (firstMatch_none _ _ E). split; congruence.
Qed.

Lemma parse_empty (v : string) : parse v = [] <-> matches v = [].
Proof.
  unfold parse; rewrite parseNode_matches.
  destruct (matches v) as [|m ms]; [tauto|].
  cbn [fold_left]. unfold parseStep at 2. cbn [fst snd dictSet].
  match goal with
  | |- fst (fold_left parseStep ms (_, ?h)) = _ <-> _ =>
      destruct (fold_parseStep_head ms [] h (code m) (text m))
        as (v' & tl' & E)
  end.
  split; [|discriminate]. intros H.
  assert (H' : (code m, v') :: tl' = []) by
    (etransitivity; [symmetry; exact E | exact H]).
  discriminate.
Qed.

Lemma indexNode_pushes (values : list string) (acc : list Item * list Event)
    (n : nat) (v : string) :
  nth_error values n = Some v -> fst (test 0 v) = true ->
  map node (fst (indexNode values acc n)) = map node (fst acc) ++ [n].
Proof.
  intros Hn Ht. unfold indexNode. rewrite Hn.
  assert (Hp : parse v <> []).
  { intros H. apply parse_empty in H. now apply test_matches in Ht. }
  unfold parse in Hp. destruct (parseNode v) as [d h]. cbn [fst] in Hp.
  destruct d as [|[k x] tl]; [congruence|].
  cbn [keys map List.length Nat.ltb Nat.leb].
  destruct h; cbn [negb fst]; [rewrite map_app; reflexivity|].
  destruct (isEmpty k); cbn [fst]; rewrite map_app; reflexivity.
Qed.

(** Index build stores exactly the text nodes in which the pattern
    matches, in document order. *)
Lemma buildIndex_nodes (values : list string) (lg : list Event) :
  map node (fst (buildIndex values ([], lg))) = getTextNodes values.
Proof.
  unfold buildIndex.
  assert (H : forall ns acc,
    (forall n, In n ns ->
       exists v, nth_error values n = Some v /\ fst (test 0 v) = true) ->
    map node (fst (fold_left (indexNode values) ns acc))
    = map node (fst acc) ++ ns).
  { induction ns as [|n ns IH]; intros acc Hns; simpl.
    - now rewrite app_nil_r.
    - destruct (Hns n (or_introl eq_refl)) as (v & Hv & Ht).
      rewrite IH by (intros; apply Hns; now right).
      rewrite (indexNode_pushes values acc n v Hv Ht).
      now rewrite <- app_assoc. }
  rewrite H; [reflexivity|].
  intros n Hn. unfold getTextNodes in Hn.
  destruct (positions_nth _ _ _ _ Hn) as (v & Hv & Ht).
  rewrite Nat.sub_0_r in Hv. eauto.
Qed.

Lemma IndexOk_length (gd : list Item) (values values' : list string) :
  List.length values' = List.length values ->
  IndexOk gd values -> IndexOk gd values'.
Proof. unfold IndexOk; intros ->; auto. Qed.

(** The index the [DOMContentLoaded] handler leaves is well formed, so the
    later calls of [applyLang] run on a well-formed index. *)
Lemma onDOMContentLoaded_index (qsa : string -> list Element -> option (list nat))
    (m : Module) (w : World) :
  globalDict m = [] ->
  IndexOk (globalDict (fst (fst (onDOMContentLoaded qsa m w))))
          (textNodes (snd (fst (onDOMContentLoaded qsa m w)))).
Proof.
  intros Hg. unfold onDOMContentLoaded. rewrite Hg.
  pose proof (buildIndex_ok (textNodes w) (log w)) as Hok.
  destruct (buildIndex (textNodes w) ([], log w)) as [gd lg].
  cbn [fst snd globalDict] in *.
  apply (IndexOk_length gd (textNodes w)); [|exact Hok].
  rewrite applyLang_textNodes. cbn [textNodes]. apply length_textsAfter.
Qed.

(** C5.  Every item that index build stores has a non-empty dictionary
    with a non-empty entry for the default language.  When the parsed blob
    has the entry, the dictionary is the parsed one; when it has none, the
    dictionary is the parsed one followed by the default-language entry,
    whose text is copied from the first entry, the one of the first tag
    matched, and the diagnostic naming that first key is logged.  So
    [applyLang] with a language code the dictionary has no entry for makes
    the node show that default text. *)
Theorem index_default_entry (values : list string) (lg : list Event) (it : Item) :
  In it (fst (buildIndex values ([], lg))) ->
  exists nodeValue v,
    nth_error values (node it) = Some nodeValue /\
    dict it <> [] /\
    dictGet (dict it) DEFAULT_LANG = Some v /\ v <> "" /\
    (dictGet (parse nodeValue) DEFAULT_LANG = Some v /\ dict it = parse nodeValue
     \/
     dictGet (parse nodeValue) DEFAULT_LANG = None /\
     exists firstKey tl m ms,
       matches nodeValue = m :: ms /\ code m = firstKey /\
       parse nodeValue = (firstKey, v) :: tl /\
       dict it = parse nodeValue ++ [(DEFAULT_LANG, v)] /\
       In (missingDefaultWarning firstKey nodeValue)
          (snd (buildIndex values ([], lg)))) /\
    (forall qsa m w,
       globalDict m = fst (buildIndex values ([], lg)) ->
       List.length (textNodes w) = List.length values ->
       isLangCode (currentLang m) = true ->
       dictGet (dict it) (currentLang m) = None ->
       nth_error (textNodes (fst (applyLang qsa m w))) (node it) = Some v).
Proof.
  intros Hin.
  pose proof (buildIndex_Indexed values lg) as HI.
  rewrite Forall_forall in HI. specialize (HI it Hin).
  destruct (buildIndex_ok values lg) as [Hnd Hok].
  rewrite Forall_forall in Hok. destruct (Hok it Hin) as [Hlt Hvals].
  assert (Hfinal : forall v, dictGet (dict it) DEFAULT_LANG = Some v ->
    v <> "" /\
    forall qsa m w,
      globalDict m = fst (buildIndex values ([], lg)) ->
      List.length (textNodes w) = List.length values ->
      isLangCode (currentLang m) = true ->
      dictGet (dict it) (currentLang m) = None ->
      nth_error (textNodes (fst (applyLang qsa m w))) (node it) = Some v).
  { intros v Hv. split.
    - rewrite Forall_forall in Hvals. exact (Hvals _ (dictGet_In _ _ _ Hv)).
    - intros qsa m w Hg Hlen _ Hnone.
      rewrite applyLang_textNodes, nth_error_textsAfter, Hg.
      rewrite (lastDict_NoDup _ _ Hnd Hin), Hlen.
      apply Nat.ltb_lt in Hlt; rewrite Hlt.
      rewrite (newText_spec _ _ Hvals). unfold spec_text.
      now rewrite Hnone, Hv. }
  destruct HI as (nv & Hn & Hp & [[Hf E]|(Hf & k & v & tl & E & Ed & Hw)]).
  - apply parseNode_flag in Hf.
    destruct (dictGet (parse nv) DEFAULT_LANG) as [v|] eqn:Ev; [|congruence].
    assert (Hv : dictGet (dict it) DEFAULT_LANG = Some v) by now rewrite E.
    destruct (Hfinal v Hv) as [Hne Happly].
    exists nv, v. repeat split; auto. now rewrite E.
  - assert (Hnone : dictGet (parse nv) DEFAULT_LANG = None).
    { destruct (dictGet (parse nv) DEFAULT_LANG) eqn:Ev; [|reflexivity].
      assert (Ht : snd (parseNode nv) = true)
        by (apply parseNode_flag; congruence).
      congruence. }
    assert (Hv : dictGet (dict it) DEFAULT_LANG = Some v).
    { rewrite Ed, dictGet_dictSet. now rewrite String.eqb_refl. }
    destruct (Hfinal v Hv) as [Hne Happly].
    destruct (parse_head _ _ _ _ E) as (m & ms & Em & Ec).
    exists nv, v. repeat split; auto.
    + rewrite Ed, (dictSet_fresh _ _ _ Hnone). now destruct (parse nv).
    + right. split; [exact Hnone|].
      exists k, tl, m, ms. repeat split; auto.
      rewrite Ed. now apply dictSet_fresh.
Qed.

Lemma index_default_entry_witness :
  In helloItem (fst (buildIndex helloValues ([], []))) /\
  exists nodeValue v,
    nth_error helloValues (node helloItem) = Some nodeValue /\
    dictGet (dict helloItem) DEFAULT_LANG = Some v /\
    nth_error
      (textNodes
         (fst (applyLang refEngine
                 (mkModule false "fr" (fst (buildIndex helloValues ([], []))))
                 helloWorld)))
      (node helloItem) = Some v.
Proof.
  assert (Hin : In helloItem (fst (buildIndex helloValues ([], []))))
    by (left; reflexivity).
  split; [exact Hin|].
  destruct (index_default_entry helloValues [] helloItem Hin)
    as (nv & v & Hn & _ & Hv & _ & _ & Happly).
  exists nv, v. split; [exact Hn|]. split; [exact Hv|].
  apply Happly; reflexivity.
Defined.

(** The fallback example of the specification: the entry [{en: "Hello"}]
    gets a synthesized [ca: "Hello"], the diagnostic is logged, and
    applying ["fr"] shows ["Hello"]. *)
Example fallback_example :
  buildIndex ["[[en]]Hello"] ([], [])
  = ([mkItem 0 [("en", "Hello"); ("ca", "Hello")]],
     [missingDefaultWarning "en" "[[en]]Hello"]) /\
  textNodes
    (fst (applyLang refEngine
            (mkModule false "fr" [mkItem 0 [("en", "Hello"); ("ca", "Hello")]])
            (mkWorld "" (mkNavigator None None) (mkStorage false [])
               ["[[en]]Hello"] [] [])))
  = ["Hello"].
Proof. split; reflexivity. Qed.

(** ** Language detection *)

Lemma startsWith_split (p s : string) :
  startsWith p s = true -> s = (p ++ drop (String.length p) s)%string.
Proof.
  revert s; induction p as [|a p IH]; intros s; [reflexivity|].
  destruct s as [|b s]; cbn [startsWith]; [discriminate|].
  intros H; apply andb_true_iff in H; destruct H as [Hab Hp].
  apply Ascii.eqb_eq in Hab; subst b. simpl. now rewrite <- (IH s Hp).
Qed.

Lemma startsWith_append (p s : string) : startsWith p (p ++ s) = true.
Proof.
  induction p as [|a p IH]; [reflexivity|].
  simpl. now rewrite Ascii.eqb_refl, IH.
Qed.

Lemma paramHere_sound (s c : string) :
  paramHere s = Some c ->
  isLangCode c = true /\
  exists sep post,
    isSeparator sep = true /\ s = String sep ("lang=" ++ c ++ post).
Proof.
  destruct s as [|sep tl]; cbn [paramHere]; [discriminate|].
  destruct (isSeparator sep) eqn:Hs; cbn [andb]; [|discriminate].
  destruct (startsWith "lang=" tl) eqn:Hp; [|discriminate].
  apply startsWith_split in Hp. cbn [String.length] in Hp.
  destruct (drop 5 tl) as [|a [|b post]]; try discriminate.
  destruct (isLower a) eqn:Ha; [|discriminate].
  destruct (isLower b) eqn:Hb; [|discriminate].
  intros [= <-]. split; [simpl; now rewrite Ha, Hb|].
  exists sep, post. split; [exact Hs|]. now rewrite Hp at 1.
Qed.

Lemma paramHere_intro (sep : ascii) (c post : string) :
  isSeparator sep = true -> isLangCode c = true ->
  paramHere (String sep ("lang=" ++ c ++ post)) = Some c.
Proof.
  intros Hs Hc. destruct (isLangCode_inv c Hc) as (a & b & -> & Ha & Hb).
  cbn [paramHere]. rewrite Hs.
  rewrite startsWith_append. cbn [andb].
  change (drop 5 ("lang=" ++ String a (String b "") ++ post))
    with (String a (String b post)).
  cbv beta iota. now rewrite Ha, Hb.
Qed.

Lemma getLangParam_sound (s c : string) :
  getLangParam s = Some c ->
  isLangCode c = true /\
  exists pre sep post,
    isSeparator sep = true /\
    s = (pre ++ String sep ("lang=" ++ c ++ post))%string.
Proof.
  induction s as [|x s IH]; cbn [getLangParam]; [discriminate|].
  destruct (paramHere (String x s)) as [c'|] eqn:E.
  - intros [= ->]. destruct (paramHere_sound _ _ E) as (Hc & sep & post & Hs & Es).
    split; [exact Hc|]. exists "", sep, post. auto.
  - intros H. destruct (IH H) as (Hc & pre & sep & post & Hs & Es).
    split; [exact Hc|]. exists (String x pre), sep, post.
    split; [exact Hs|]. simpl. now rewrite Es.
Qed.

Lemma getLangParam_complete (pre : string) (sep : ascii) (c post : string) :
  isSeparator sep = true -> isLangCode c = true ->
  exists c', getLangParam (pre ++ String sep ("lang=" ++ c ++ post)) = Some c'.
Proof.
  intros Hs Hc. induction pre as [|x pre IH].
  - exists c.
    change (("" ++ String sep ("lang=" ++ c ++ post))%string)
      with (String sep ("lang=" ++ c ++ post)).
    pose proof (paramHere_intro sep c post Hs Hc) as H.
    cbn [getLangParam]. now rewrite H.
  - change ((String x pre ++ String sep ("lang=" ++ c ++ post))%string)
      with (String x (pre ++ String sep ("lang=" ++ c ++ post))).
    cbn [getLangParam].
    destruct (paramHere _) as [c'|]; [eauto | exact IH].
Qed.

Lemma getLangParam_truthy (s c : string) :
  getLangParam s = Some c -> isEmpty c = false.
Proof.
  intros H. destruct (getLangParam_sound s c H) as [Hc _].
  destruct (isLangCode_inv c Hc) as (a & b & -> & _). reflexivity.
Qed.

Lemma dictGet_filter (d : Dict) (k k' : string) :
  dictGet (filter (fun kv => negb (String.eqb (fst kv) k)) d) k'
  = if String.eqb k k' then None else dictGet d k'.
Proof.
  induction d as [|[k0 v0] d IH]; simpl; [now destruct (String.eqb k k')|].
  destruct (String.eqb_spec k0 k) as [->|Hk]; simpl.
  - rewrite IH. destruct (String.eqb k k'); reflexivity.
  - rewrite IH. destruct (String.eqb_spec k0 k') as [->|]; [|reflexivity].
    destruct (String.eqb_spec k k'); congruence.
Qed.

Lemma probeStorage_spec (st : Storage) :
  fst (probeStorage st) = accessible st /\
  accessible (snd (probeStorage st)) = accessible st /\
  (accessible st = false -> snd (probeStorage st) = st) /\
  (forall k, String.eqb testKey k = false ->
     dictGet (items (snd (probeStorage st))) k = dictGet (items st) k).
Proof.
  unfold probeStorage, localStorage_setItem, localStorage_removeItem.
  destruct st as [[|] its]; cbn [accessible items fst snd];
    repeat split; auto; try discriminate.
  intros k Hk. now rewrite dictGet_filter, dictGet_dictSet, Hk.
Qed.

Lemma take_truthy (n : nat) (s : string) :
  isEmpty (take (S n) s) = isEmpty s.
Proof. destruct s; reflexivity. Qed.

Lemma resolveInitial_value (enabled : bool) (w : World) :
  enabled = accessible (storage w) ->
  resolveInitial enabled w
  = (w, Normal (spec_firstNonEmpty [getLangParam (search w);
                               spec_persistedChoice (storage w);
                               spec_environmentLang (navigator w)]
                              DEFAULT_LANG)).
Proof.
  intros ->. unfold resolveInitial, spec_firstNonEmpty.
  destruct (getLangParam (search w)) as [c|] eqn:Ep.
  - pose proof (getLangParam_truthy _ _ Ep) as Hc.
    unfold truthy, orString. now rewrite Hc.
  - cbn [truthy].
    unfold getLangFromStorage, localStorage_getItem, spec_persistedChoice.
    assert (He : orString None (getBrowserLang (navigator w))
                 = (if truthy (spec_environmentLang (navigator w))
                    then orString (spec_environmentLang (navigator w)) DEFAULT_LANG
                    else DEFAULT_LANG)).
    { unfold getBrowserLang, spec_environmentLang. cbn [orString].
      destruct (jsOr (language (navigator w)) (userLanguage (navigator w)))
        as [l|]; [|reflexivity].
      cbn [truthy orString]. rewrite take_truthy.
      destruct l; reflexivity. }
    destruct (accessible (storage w)).
    + destruct (dictGet (items (storage w)) LANG_STORAGE_KEY) as [v|];
        [|cbn [truthy]; now rewrite <- He].
      cbn [truthy orString]. destruct (isEmpty v); cbn [negb];
        [now rewrite <- He | reflexivity].
    + cbn [truthy]. now rewrite <- He.
Qed.



(** The resolver examples of the specification. *)
Example resolver_examples :
  (let w := mkWorld "?lang=es" (mkNavigator (Some "de") None)
              (mkStorage true [("lang", "fr")]) [] [] [] in
   snd (resolveInitial true w) = Normal "es") /\
  (let w := mkWorld "" (mkNavigator (Some "de") None)
              (mkStorage true [("lang", "fr")]) [] [] [] in
   snd (resolveInitial true w) = Normal "fr") /\
  (let w := mkWorld "" (mkNavigator None None) (mkStorage false []) [] [] [] in
   snd (resolveInitial false w) = Normal "ca").
Proof. repeat split. Qed.

(** ** [setLang] *)

Lemma currentLang_after_setLang
    (qsa : string -> list Element -> option (list nat))
    (m : Module) (w : World) (lang : JsValue) :
  currentLang (fst (fst (setLang qsa m w lang)))
  = match lang with
    | Some s => if (String.length s =? 2)%nat then s else currentLang m
    | None => currentLang m
    end /\
  (String.length (currentLang (fst (fst (setLang qsa m w lang)))) = 2 \/
   (spec_invalid lang = true /\ fst (fst (setLang qsa m w lang)) = m)).
Proof.
  unfold setLang, spec_invalid. destruct lang as [s|]; [|auto].
  destruct (Nat.eqb_spec (String.length s) 2) as [E|E].
  - assert (Hs : isEmpty s = false) by (destruct s; [discriminate | reflexivity]).
    rewrite Hs. cbn [orb negb].
    destruct (isStorageEnabled m);
      [destruct (localStorage_setItem _ _ _)|]; cbn [fst snd currentLang]; auto.
  - rewrite orb_true_r. cbn [fst snd negb]. auto.
Qed.

Lemma guard_string (s : string) :
  guardRejects (VString s) = negb (String.length s =? 2)%nat.
Proof.
  unfold guardRejects; cbn [valueTruthy valueLengthIs2].
  destruct s as [|a [|b [|c s]]]; reflexivity.
Qed.

(** C6 (amended).  After [setLang(lang)], [currentLang] is [lang] itself
    when [lang] passes the guard, that is when it is truthy and its
    [length] is 2, and is the prior value in every other case.  For a
    string this means exactly two characters, whatever they are; [null],
    an absent argument and a string of another length leave the prior
    value in place.  The guard does not look at the type: an array of two
    elements, or any other truthy value whose [length] is 2, passes it
    and becomes [currentLang] as it is.  On strings and [null] this is
    the value [setLang] leaves in the script's variable, whether the call
    returns or throws. *)
Theorem setLang_currentLang :
  (forall current lang,
     (currentLangAfter current lang = lang /\
      valueTruthy lang = true /\ valueLengthIs2 lang = true) \/
     (currentLangAfter current lang = current /\
      (valueTruthy lang = false \/ valueLengthIs2 lang = false))) /\
  (forall current s,
     currentLangAfter current (VString s)
     = if (String.length s =? 2)%nat then VString s else current) /\
  (forall current, currentLangAfter current VNull = current) /\
  (forall current a b,
     currentLangAfter current (VArray [a; b]) = VArray [a; b]) /\
  (forall current, currentLangAfter current (VOther true true) = VOther true true) /\
  (forall qsa m w lang,
     VString (currentLang (fst (fst (setLang qsa m w lang))))
     = currentLangAfter (VString (currentLang m)) (ofJsValue lang)) /\
  (forall qsa m w lang,
     String.length (currentLang (fst (fst (setLang qsa m w lang)))) = 2 \/
     (spec_invalid lang = true /\ fst (fst (setLang qsa m w lang)) = m)).
Proof.
  assert (Hstr : forall current s,
    currentLangAfter current (VString s)
    = if (String.length s =? 2)%nat then VString s else current).
  { intros current s. unfold currentLangAfter. rewrite guard_string.
    now destruct (String.length s =? 2)%nat. }
  split; [|split; [exact Hstr|split; [reflexivity|split; [reflexivity|
           split; [reflexivity|split]]]]].
  - intros current lang. unfold currentLangAfter, guardRejects.
    destruct (valueTruthy lang), (valueLengthIs2 lang); cbn [negb orb]; auto.
  - intros qsa m w lang.
    destruct (currentLang_after_setLang qsa m w lang) as [E _]. rewrite E.
    destruct lang as [s|]; cbn [ofJsValue]; [|reflexivity].
    rewrite Hstr. now destruct (String.length s =? 2)%nat.
  - intros qsa m w lang. exact (proj2 (currentLang_after_setLang qsa m w lang)).
Qed.

(** C6, as stated, fails: [setLang] accepts any string of length 2, so the
    active language can be set to a value that is not two lowercase
    letters; it accepts an array of two elements as well, so the value
    need not even be a string. *)
Lemma setLang_currentLang_counterexample :
  (currentLang (fst (fst (setLang refEngine catalanModule catalanWorld
                            (Some "EN"))))
   = "EN" /\
   isLangCode "EN" = false /\
   currentLang (fst (fst (setLang refEngine catalanModule catalanWorld
                            (Some "EN"))))
   <> currentLang catalanModule) /\
  (guardRejects (VArray ["e"; "n"]) = false /\
   currentLangAfter (VString "ca") (VArray ["e"; "n"]) = VArray ["e"; "n"] /\
   forall s, VArray ["e"; "n"] <> VString s).
Proof. repeat split; discriminate. Qed.

(** C7.  A [null], absent or wrong-length argument makes [setLang] log the
    diagnostic and return normally, with the script's variables, the
    storage, the node values and the elements as they were. *)
Theorem setLang_invalid (qsa : string -> list Element -> option (list nat))
    (m : Module) (w : World) (lang : JsValue) :
  spec_invalid lang = true ->
  setLang qsa m w lang = (m, emit w (invalidLangWarning lang), Normal tt) /\
  currentLang (fst (fst (setLang qsa m w lang))) = currentLang m /\
  storage (snd (fst (setLang qsa m w lang))) = storage w /\
  textNodes (snd (fst (setLang qsa m w lang))) = textNodes w /\
  elements (snd (fst (setLang qsa m w lang))) = elements w /\
  log (snd (fst (setLang qsa m w lang))) = log w ++ [invalidLangWarning lang] /\
  snd (setLang qsa m w lang) = Normal tt.
Proof.
  intros H.
  assert (E : setLang qsa m w lang
              = (m, emit w (invalidLangWarning lang), Normal tt)).
  { unfold setLang, spec_invalid in *. destruct lang as [s|]; [|reflexivity].
    now rewrite H, orb_true_r. }
  rewrite E. repeat split.
Qed.

Lemma setLang_invalid_witness :
  (spec_invalid None = true /\
   setLang refEngine catalanModule catalanWorld None
   = (catalanModule, emit catalanWorld (invalidLangWarning None), Normal tt)) /\
  (spec_invalid (Some "x") = true /\
   setLang refEngine catalanModule catalanWorld (Some "x")
   = (catalanModule, emit catalanWorld (invalidLangWarning (Some "x")),
      Normal tt)).
Proof.
  split; (split; [reflexivity|]).
  - exact (proj1 (setLang_invalid refEngine catalanModule catalanWorld None
                    eq_refl)).
  - exact (proj1 (setLang_invalid refEngine catalanModule catalanWorld
                    (Some "x") eq_refl)).
Defined.

(** C8 (amended).  With storage out of reach when the script loads, the
    probe answers [false] without throwing and leaves the storage alone,
    reading the persisted choice gives nothing, and the script loads
    normally with [isStorageEnabled] false.  With that flag, whatever the
    storage has become since, [setLang] and the [DOMContentLoaded] handler
    leave the storage untouched and never end with the storage's
    exception.  A storage out of reach at the time of a call while
    [isStorageEnabled] is set, the probe having succeeded at load time, is
    another matter: [setLang] with an accepted argument then changes
    [currentLang] and ends with the storage's exception, the page left as
    it was. *)
Theorem storage_unavailable (qsa : string -> list Element -> option (list nat))
    (w : World) :
  accessible (storage w) = false ->
  probeStorage (storage w) = (false, storage w) /\
  getLangFromStorage false (storage w) = Normal None /\
  (exists lang, loadModule w = (w, Normal (mkModule false lang []))) /\
  (forall m w' lang,
     isStorageEnabled m = false ->
     storage (snd (fst (setLang qsa m w' lang))) = storage w' /\
     snd (setLang qsa m w' lang) <> Throw SecurityError) /\
  (forall m w',
     isStorageEnabled m = false ->
     storage (snd (fst (onDOMContentLoaded qsa m w'))) = storage w' /\
     snd (onDOMContentLoaded qsa m w') <> Throw SecurityError) /\
  (forall m s,
     isStorageEnabled m = true ->
     String.length s = 2 ->
     setLang qsa m w (Some s)
     = (mkModule true s (globalDict m), w, Throw SecurityError)).
Proof.
  intros Ha.
  assert (Hp : probeStorage (storage w) = (false, storage w)).
  { unfold probeStorage, localStorage_setItem. now rewrite Ha. }
  split; [exact Hp|]. split; [reflexivity|]. split; [|split; [|split]].
  - unfold loadModule. rewrite Hp.
    assert (Hw : withStorage w (storage w) = w) by now destruct w.
    rewrite Hw, resolveInitial_value by (now rewrite Ha). eauto.
  - intros m w' lang Hm. unfold setLang. rewrite Hm.
    destruct lang as [s|]; [|split; [reflexivity | discriminate]].
    destruct (isEmpty s || negb (String.length s =? 2)%nat);
      [split; [reflexivity | discriminate]|].
    cbn [fst snd]. apply applyLang_storage.
  - intros m w' Hm. unfold onDOMContentLoaded.
    destruct (buildIndex (textNodes w') (globalDict m, log w')) as [gd lg].
    cbn [fst snd].
    match goal with
    | |- storage (fst (applyLang qsa ?m1 ?w1)) = _ /\ _ =>
        destruct (applyLang_storage qsa m1 w1) as [Hs Hn]
    end.
    split; [exact Hs | exact Hn].
  - intros m s Hm Hs. unfold setLang, localStorage_setItem.
    rewrite Hm, Ha, Hs.
    assert (He : isEmpty s = false) by (destruct s; [discriminate | reflexivity]).
    now rewrite He.
Qed.

Lemma storage_unavailable_witness :
  accessible (storage blockedWorld) = false /\
  loadModule blockedWorld = (blockedWorld, Normal (mkModule false "en" [])) /\
  storage
    (snd (fst (setLang refEngine (mkModule false "en" []) blockedWorld
                 (Some "ca"))))
  = storage blockedWorld /\
  storage
    (snd (fst (setLang refEngine (mkModule false "en" []) catalanWorld
                 (Some "ca"))))
  = storage catalanWorld /\
  setLang refEngine catalanModule blockedWorld (Some "en")
  = (mkModule true "en" (globalDict catalanModule), blockedWorld,
     Throw SecurityError).
Proof.
  destruct (storage_unavailable refEngine blockedWorld eq_refl)
    as (_ & _ & _ & Hset & _ & Hthrow).
  split; [reflexivity|]. split; [reflexivity|].
  split; [exact (proj1 (Hset (mkModule false "en" []) blockedWorld (Some "ca")
                          eq_refl))|].
  split; [exact (proj1 (Hset (mkModule false "en" []) catalanWorld (Some "ca")
                          eq_refl))|].
  exact (Hthrow catalanModule "en" eq_refl eq_refl).
Defined.

(** C8, as stated, fails for a storage that was accessible when the
    script loaded and is out of reach at the time of the call:
    [isStorageEnabled] is still set, line 100 writes, and [setLang] ends
    with the storage's exception, [currentLang] already changed. *)
Lemma storage_unavailable_counterexample :
  accessible (storage blockedWorld) = false /\
  isStorageEnabled catalanModule = true /\
  snd (setLang refEngine catalanModule blockedWorld (Some "en"))
  = Throw SecurityError /\
  currentLang (fst (fst (setLang refEngine catalanModule blockedWorld
                           (Some "en"))))
  = "en" /\
  currentLang catalanModule = "ca".
Proof. repeat split. Qed.

(** The end-to-end example of the specification: the node
    [[[ca]]Hola[[en]]Hello] and an element marked [en]; with initial
    language [ca] the node shows [Hola] and the element is hidden; after
    [setLang("en")] the node shows [Hello] and the element is visible. *)
Example end_to_end :
  let w0 := mkWorld "" (mkNavigator (Some "ca") None) (mkStorage true [])
              ["[[ca]]Hola[[en]]Hello"] [mkElement (Some "en") ""] [] in
  exists m0 m1 w1 m2 w2,
    loadModule w0 = (w0, Normal m0) /\
    onDOMContentLoaded refEngine m0 w0 = (m1, w1, Normal tt) /\
    textNodes w1 = ["Hola"] /\ elements w1 = [mkElement (Some "en") "none"] /\
    setLang refEngine m1 w1 (Some "en") = (m2, w2, Normal tt) /\
    currentLang m2 = "en" /\
    textNodes w2 = ["Hello"] /\ elements w2 = [mkElement (Some "en") ""] /\
    dictGet (items (storage w2)) LANG_STORAGE_KEY = Some "en".
Proof.
  intros w0. do 5 eexists.
  split; [reflexivity|]. split; [reflexivity|]. repeat split.
Qed.


(** * Further properties of the script *)

(** ** The parser on untagged text *)

Lemma matchHere_startsWith (i : nat) (s : string) (m : Match) :
  matchHere i s = Some m -> startsWith "[[" s = true.
Proof.
  intros H. destruct (matchHere_elim _ _ _ H) as (_ & Hc & _ & E & _).
  destruct (isLangCode_inv _ Hc) as (a & b & Ec & _).
  rewrite E, Ec. reflexivity.
Qed.

Lemma hasTagOpen_firstMatch (i : nat) (s : string) :
  hasTagOpen s = false -> firstMatch i s = None.
Proof.
  revert i; induction s as [|c s IH]; intros i H; [reflexivity|].
  cbn [hasTagOpen] in H. apply orb_false_iff in H. destruct H as [Hc Hs].
  cbn [firstMatch].
  destruct (matchHere i (String c s)) as [m|] eqn:E; [|now apply IH].
  apply matchHere_startsWith in E.
  change (startsWith "[[" (String c s))
    with (Ascii.eqb "[" c && startsWith "[" s) in E.
  rewrite (Ascii.eqb_sym "[" c) in E. congruence.
Qed.

Lemma hasTagOpen_matches (s : string) : hasTagOpen s = false -> matches s = [].
Proof. intros H. apply firstMatch_none. now apply hasTagOpen_firstMatch. Qed.

Lemma bracketFree_hasTagOpen (s : string) :
  bracketFree s = true -> hasTagOpen s = false.
Proof.
  induction s as [|c s IH]; [reflexivity|]. cbn [bracketFree hasTagOpen].
  intros H; apply andb_true_iff in H; destruct H as [Hc Hs].
  unfold notBracket in Hc. apply negb_true_iff in Hc.
  now rewrite Hc, (IH Hs).
Qed.

Lemma test_false (s : string) : matches s = [] -> fst (test 0 s) = false.
Proof.
  intros H. destruct (fst (test 0 s)) eqn:E; [|reflexivity].
  now apply test_matches in E.
Qed.

Lemma positions_none {A : Type} (p : A -> bool) (k : nat) (l : list A) :
  Forall (fun x => p x = false) l -> positions p k l = [].
Proof.
  intros H; revert k; induction H as [|x l Hx _ IH]; intros k; [reflexivity|].
  cbn [positions]. now rewrite Hx, IH.
Qed.

(** X1.  A text without two opening brackets in a row has no match: its
    dictionary is empty and [getTextNodes] skips it, so a page without
    such a text gets no index entry and no diagnostic. *)
Theorem untagged_text_ignored :
  (forall s, hasTagOpen s = false -> parse s = [] /\ fst (test 0 s) = false) /\
  (forall values acc,
     Forall (fun v => hasTagOpen v = false) values ->
     getTextNodes values = [] /\ buildIndex values acc = acc).
Proof.
  split.
  - intros s H. pose proof (hasTagOpen_matches s H) as Hm.
    split; [now apply parse_empty | now apply test_false].
  - intros values acc H.
    assert (Hg : getTextNodes values = []).
    { apply positions_none. eapply Forall_impl; [|exact H].
      intros v Hv. cbv beta. apply test_false. now apply hasTagOpen_matches. }
    split; [exact Hg|]. unfold buildIndex. now rewrite Hg.
Qed.

Lemma untagged_text_ignored_witness :
  (hasTagOpen "price [1] in [EUR]" = false /\
   parse "price [1] in [EUR]" = []) /\
  buildIndex ["Home"; "a[0]"] ([], []) = ([], []).
Proof.
  destruct untagged_text_ignored as [H1 H2]. split.
  - split; [reflexivity|]. exact (proj1 (H1 "price [1] in [EUR]" eq_refl)).
  - apply (H2 ["Home"; "a[0]"] ([], [])). repeat constructor.
Defined.

(** ** Key order *)

Lemma keys_dictSet (d : Dict) (k v : string) :
  keys (dictSet d k v) = addKey (keys d) k.
Proof.
  unfold addKey, keys. induction d as [|[k' v'] d IH]; [reflexivity|].
  cbn [dictSet map fst existsb].
  rewrite (String.eqb_sym k k').
  destruct (String.eqb k' k); cbn [map fst orb]; [reflexivity|].
  rewrite IH. now destruct (existsb (String.eqb k) (map fst d)).
Qed.

Lemma keys_fold_parseStep (ms : list Match) (acc : Dict * bool) :
  keys (fst (fold_left parseStep ms acc))
  = fold_left addKey (map code ms) (keys (fst acc)).
Proof.
  revert acc; induction ms as [|m ms IH]; intros acc; [reflexivity|].
  cbn [fold_left map]. rewrite IH. cbn [parseStep fst].
  now rewrite keys_dictSet.
Qed.

Lemma addKey_NoDup (ks : list string) (k : string) :
  NoDup ks -> NoDup (addKey ks k).
Proof.
  intros H. unfold addKey. destruct (existsb (String.eqb k) ks) eqn:E; [exact H|].
  apply NoDup_app; [exact H | repeat constructor; intros [] |].
  intros x Hx [Hk|[]]. subst x.
  assert (Ht : existsb (String.eqb k) ks = true).
  { apply existsb_exists. exists k. split; [exact Hx | apply String.eqb_refl]. }
  congruence.
Qed.

Lemma fold_addKey_NoDup (cs ks : list string) :
  NoDup ks -> NoDup (fold_left addKey cs ks).
Proof.
  revert ks; induction cs as [|c cs IH]; intros ks H; [exact H|].
  cbn [fold_left]. apply IH. now apply addKey_NoDup.
Qed.

(** X2.  The keys of a parsed dictionary are the codes of the matches in
    the order of their first appearance, each once: this is the order
    [Object.keys] gives, whose head the fallback copies. *)
Theorem parse_keys_order (s : string) :
  keys (parse s) = fold_left addKey (map code (matches s)) [] /\
  NoDup (keys (parse s)).
Proof.
  assert (H : keys (parse s) = fold_left addKey (map code (matches s)) []).
  { unfold parse. rewrite parseNode_matches. apply keys_fold_parseStep. }
  split; [exact H|]. rewrite H. apply fold_addKey_NoDup. constructor.
Qed.

(** ** Parsing across a tag boundary *)

(** X3.  Where a text is cut just before two opening brackets, parsing
    composes: the dictionary of the whole is the dictionary of the second
    part, completed by that of the first part. *)
Theorem parse_at_tag_boundary (pre t k : string) :
  startsWith "[[" t = true ->
  dictGet (parse (pre ++ t)) k
  = match dictGet (parse t) k with
    | Some v => Some v
    | None => dictGet (parse pre) k
    end.
Proof.
  intros Ht. rewrite !parse_get. unfold matches.
  rewrite (matchesFrom_before_tag 0 0 pre t Ht) by lia.
  rewrite lastText_app, matchesFrom_shift, lastText_shift. reflexivity.
Qed.

Lemma parse_at_tag_boundary_witness :
  startsWith "[[" "[[oops[[en]]Bye" = true /\
  dictGet (parse ("[[en]]Hi[[fr]]Salut[" ++ "[[oops[[en]]Bye")) "fr"
  = Some "Salut".
Proof.
  split; [reflexivity|].
  exact (parse_at_tag_boundary "[[en]]Hi[[fr]]Salut[" "[[oops[[en]]Bye" "fr"
           eq_refl).
Defined.

(** ** How many matches a text can hold *)

Lemma matchesFrom_bound (k i : nat) (s : string) :
  k <= String.length s ->
  7 * List.length (matchesFrom k i s) + k <= String.length s.
Proof.
  revert k i; induction s as [|c s IH]; intros k i Hk.
  - simpl in *. lia.
  - cbn [matchesFrom String.length] in *. destruct k as [|k].
    + destruct (matchHere i (String c s)) as [m|] eqn:E.
      * destruct (matchHere_length _ _ _ E) as [Hl H1].
        cbn [String.length] in Hl. cbn [List.length].
        specialize (IH (5 + String.length (text m)) (S i)). lia.
      * specialize (IH 0 (S i)). lia.
    + specialize (IH k (S i)). lia.
Qed.

Lemma length_dictSet (d : Dict) (k v : string) :
  List.length (dictSet d k v) <= S (List.length d).
Proof.
  induction d as [|[k' v'] d IH]; cbn [dictSet List.length]; [lia|].
  destruct (String.eqb k' k); cbn [List.length]; lia.
Qed.

Lemma length_fold_parseStep (ms : list Match) (acc : Dict * bool) :
  List.length (fst (fold_left parseStep ms acc))
  <= List.length (fst acc) + List.length ms.
Proof.
  revert acc; induction ms as [|m ms IH]; intros acc; cbn [fold_left List.length];
    [lia|].
  pose proof (IH (parseStep acc m)) as H.
  pose proof (length_dictSet (fst acc) (code m) (text m)) as H'.
  cbn [parseStep fst] in H. lia.
Qed.

(** X4.  Every match takes at least seven characters, so a text of [n]
    characters has at most [n / 7] matches and its dictionary at most as
    many entries. *)
Theorem matches_bound (s : string) :
  7 * List.length (matches s) <= String.length s /\
  List.length (parse s) <= List.length (matches s).
Proof.
  split.
  - pose proof (matchesFrom_bound 0 0 s). unfold matches. lia.
  - unfold parse. rewrite parseNode_matches.
    pose proof (length_fold_parseStep (matches s) ([], false)) as H.
    exact H.
Qed.

(** ** The request parameter *)

(** X5.  [getLangParam] gives [null] exactly when the search string holds
    no [?lang=] or [&lang=] followed by two lowercase letters; in
    particular an uppercase or one-letter value is not read. *)
Theorem getLangParam_none_iff (s : string) :
  getLangParam s = None <->
  ~ exists pre sep c post,
      isSeparator sep = true /\ isLangCode c = true /\
      s = (pre ++ String sep ("lang=" ++ c ++ post))%string.
Proof.
  split.
  - intros H (pre & sep & c & post & Hs & Hc & ->).
    destruct (getLangParam_complete pre sep c post Hs Hc) as (c' & Hc').
    congruence.
  - intros H. destruct (getLangParam s) as [c|] eqn:E; [|reflexivity].
    exfalso; apply H.
    destruct (getLangParam_sound s c E) as (Hc & pre & sep & post & Hs & Es).
    exists pre, sep, c, post. auto.
Qed.

Lemma getLangParam_none_iff_witness :
  getLangParam "?lang=EN&l=e" = None /\
  ~ exists pre sep c post,
      isSeparator sep = true /\ isLangCode c = true /\
      "?lang=EN&l=e" = (pre ++ String sep ("lang=" ++ c ++ post))%string.
Proof.
  split; [reflexivity|].
  exact (proj1 (getLangParam_none_iff "?lang=EN&l=e") eq_refl).
Defined.

(** ** The storage probe *)

(** X6.  On an accessible storage the probe answers [true] and leaves
    every item in place except the one under [__test__], which is gone
    afterwards, whether or not the page had stored one. *)
Theorem probeStorage_effect (st : Storage) :
  accessible st = true ->
  fst (probeStorage st) = true /\
  accessible (snd (probeStorage st)) = true /\
  dictGet (items (snd (probeStorage st))) testKey = None /\
  (forall k, k <> testKey ->
     dictGet (items (snd (probeStorage st))) k = dictGet (items st) k).
Proof.
  intros Ha. unfold probeStorage, localStorage_setItem, localStorage_removeItem.
  rewrite Ha. cbn [accessible items fst snd]. repeat split.
  - rewrite dictGet_filter. now rewrite String.eqb_refl.
  - intros k Hk. rewrite dictGet_filter, dictGet_dictSet.
    destruct (String.eqb_spec testKey k); [congruence | reflexivity].
Qed.

Lemma probeStorage_effect_witness :
  accessible (mkStorage true [("__test__", "mine"); ("lang", "fr")]) = true /\
  dictGet
    (items (snd (probeStorage
                   (mkStorage true [("__test__", "mine"); ("lang", "fr")]))))
    testKey = None /\
  dictGet
    (items (snd (probeStorage
                   (mkStorage true [("__test__", "mine"); ("lang", "fr")]))))
    "lang" = Some "fr".
Proof.
  destruct (probeStorage_effect
              (mkStorage true [("__test__", "mine"); ("lang", "fr")]) eq_refl)
    as (_ & _ & Ht & Hk).
  split; [reflexivity|]. split; [exact Ht|].
  apply (Hk "lang"). discriminate.
Defined.

(** ** Loading the script *)

Lemma orString_nonempty (a : JsValue) (d : string) :
  d <> "" -> orString a d <> "".
Proof.
  intros Hd. destruct a as [s|]; cbn [orString]; [|exact Hd].
  destruct s; cbn [isEmpty]; [exact Hd | discriminate].
Qed.

Lemma spec_firstNonEmpty_nonempty (cs : list JsValue) (d : string) :
  d <> "" -> spec_firstNonEmpty cs d <> "".
Proof.
  intros Hd. induction cs as [|c cs IH]; cbn [spec_firstNonEmpty]; [exact Hd|].
  destruct (truthy c); [now apply orString_nonempty | exact IH].
Qed.

Lemma getBrowserLang_bounds (nav : Navigator) :
  1 <= String.length (getBrowserLang nav) <= 2.
Proof.
  unfold getBrowserLang.
  assert (H : orString (jsOr (language nav) (userLanguage nav)) DEFAULT_LANG <> "")
    by (apply orString_nonempty; discriminate).
  destruct (orString _ _) as [|a [|b s]]; [congruence | |]; cbn; lia.
Qed.

(** X7.  Loading the script never throws: it leaves the world as the probe
    left it, sets [isStorageEnabled] to whether the storage is accessible,
    starts with an empty index, and the initial language is never the
    empty string.  The language taken from the browser has one or two
    characters. *)
Theorem loadModule_total (w : World) :
  (exists lang,
     loadModule w
     = (withStorage w (snd (probeStorage (storage w))),
        Normal (mkModule (accessible (storage w)) lang [])) /\
     lang <> "") /\
  1 <= String.length (getBrowserLang (navigator w)) <= 2.
Proof.
  split; [|apply getBrowserLang_bounds].
  unfold loadModule.
  destruct (probeStorage_spec (storage w)) as (Hf & Ha & _ & _).
  destruct (probeStorage (storage w)) as [enabled st]. cbn [fst snd] in *.
  rewrite resolveInitial_value by (cbn [withStorage storage]; congruence).
  subst enabled. eexists. split; [reflexivity|].
  apply spec_firstNonEmpty_nonempty. discriminate.
Qed.

(** ** What [applyLang] leaves alone, whatever the selector engine *)

Lemma map_replaceAt {A B : Type} (f : A -> B) (i : nat) (x el : A) (l : list A) :
  nth_error l i = Some el -> f x = f el -> map f (replaceAt i x l) = map f l.
Proof.
  revert i; induction l as [|y l IH]; intros [|i]; cbn; try discriminate.
  - intros [= ->] ->. reflexivity.
  - intros H Hf. now rewrite (IH i H Hf).
Qed.

Lemma setDisplay_autolang (v : string) (w : World) (i : nat) :
  map autolang (elements (setDisplay v w i)) = map autolang (elements w).
Proof.
  unfold setDisplay; cbn [elements].
  destruct (nth_error (elements w) i) as [el|] eqn:E; [|reflexivity].
  now apply (map_replaceAt autolang i _ el).
Qed.

Lemma displayPass_autolang (v : string) (idxs : list nat) (w : World) :
  map autolang (elements (fold_left (setDisplay v) idxs w))
  = map autolang (elements w).
Proof.
  revert w; induction idxs as [|i idxs IH]; intros w; [reflexivity|].
  cbn [fold_left]. now rewrite IH, setDisplay_autolang.
Qed.

Lemma applyLang_outside (qsa : string -> list Element -> option (list nat))
    (m : Module) (w : World) :
  search (fst (applyLang qsa m w)) = search w /\
  navigator (fst (applyLang qsa m w)) = navigator w /\
  map autolang (elements (fst (applyLang qsa m w))) = map autolang (elements w).
Proof.
  unfold applyLang.
  destruct (textPass_frame (currentLang m) (globalDict m) w)
    as (Hs & Hn & _ & He).
  set (w1 := fold_left (updateItem (currentLang m)) (globalDict m) w) in *.
  destruct (qsa "*[autolang]" (elements w1)) as [marked|]; cbn [fst];
    [|now rewrite Hs, Hn, He].
  destruct (displayPass_frame "none" marked w1) as (Hs2 & Hn2 & _).
  pose proof (displayPass_autolang "none" marked w1) as He2.
  set (w2 := fold_left (setDisplay "none") marked w1) in *.
  destruct (qsa (autolangSelector (currentLang m)) (elements w2)) as [shown|];
    cbn [fst].
  - destruct (displayPass_frame "" shown w2) as (Hs3 & Hn3 & _).
    rewrite Hs3, Hn3, displayPass_autolang, Hs2, Hn2, He2, Hs, Hn, He. auto.
  - now rewrite Hs2, Hn2, He2, Hs, Hn, He.
Qed.

Lemma applyLang_untouched (qsa : string -> list Element -> option (list nat))
    (m : Module) (w : World) :
  List.length (textNodes (fst (applyLang qsa m w))) = List.length (textNodes w) /\
  (forall n, ~ In n (map node (globalDict m)) ->
     nth_error (textNodes (fst (applyLang qsa m w))) n
     = nth_error (textNodes w) n).
Proof.
  rewrite applyLang_textNodes. split; [apply length_textsAfter|].
  intros n Hn. now rewrite nth_error_textsAfter, (lastDict_None _ _ Hn).
Qed.

(** ** [setLang] with an accepted argument *)

Lemma guard_accepts (s : string) :
  String.length s = 2 -> isEmpty s || negb (String.length s =? 2)%nat = false.
Proof. intros H. rewrite H. now destruct s. Qed.

Lemma dictSet_dictSet (d : Dict) (k v v' : string) :
  dictSet (dictSet d k v) k v' = dictSet d k v'.
Proof.
  induction d as [|[k0 v0] d IH]; cbn [dictSet].
  - now rewrite String.eqb_refl.
  - destruct (String.eqb k0 k) eqn:E; cbn [dictSet]; rewrite E;
      [reflexivity | now rewrite IH].
Qed.

Lemma textsAfter_absorb (a b : string) (gd : list Item) (values : list string) :
  textsAfter b gd (textsAfter a gd values) = textsAfter b gd values.
Proof.
  apply nth_error_ext; intros n.
  rewrite !nth_error_textsAfter, length_textsAfter.
  destruct (lastDict n gd); reflexivity.
Qed.

Lemma spec_visibility_absorb (a b : string) (el : Element) :
  spec_visibility b (spec_visibility a el) = spec_visibility b el.
Proof.
  destruct el as [x d]. unfold spec_visibility, autolangIs, hasAutolang.
  cbn [autolang]. destruct x as [x|]; [|reflexivity].
  destruct (String.eqb x a); cbn [autolang]; destruct (String.eqb x b);
    reflexivity.
Qed.

Lemma setLang_ok (qsa : string -> list Element -> option (list nat))
    (m : Module) (w : World) (s : string) :
  EngineOk qsa -> isLangCode s = true ->
  (isStorageEnabled m = true -> accessible (storage w) = true) ->
  fst (fst (setLang qsa m w (Some s)))
  = mkModule (isStorageEnabled m) s (globalDict m) /\
  snd (setLang qsa m w (Some s)) = Normal tt /\
  storage (snd (fst (setLang qsa m w (Some s))))
  = (if isStorageEnabled m
     then mkStorage true (dictSet (items (storage w)) LANG_STORAGE_KEY s)
     else storage w) /\
  textNodes (snd (fst (setLang qsa m w (Some s))))
  = textsAfter s (globalDict m) (textNodes w) /\
  elements (snd (fst (setLang qsa m w (Some s))))
  = map (spec_visibility s) (elements w).
Proof.
  intros Hq Hs Hacc. unfold setLang.
  rewrite (guard_accepts s (isLangCode_length s Hs)).
  destruct (isStorageEnabled m) eqn:Hf.
  - unfold localStorage_setItem. rewrite (Hacc eq_refl). cbn [fst snd].
    match goal with
    | |- context [applyLang qsa ?m1 ?w1] =>
        destruct (applyLang_ok qsa Hq m1 w1 Hs)
          as (Hr & _ & _ & Hst & Ht & He & _)
    end.
    rewrite Hr, Hst, Ht, He. repeat split.
  - cbn [fst snd].
    match goal with
    | |- context [applyLang qsa ?m1 ?w1] =>
        destruct (applyLang_ok qsa Hq m1 w1 Hs)
          as (Hr & _ & _ & Hst & Ht & He & _)
    end.
    rewrite Hr, Hst, Ht, He. repeat split.
Qed.

(** X8.  An accepted [setLang] with working storage stores the language
    under [lang] and leaves every other item in place, whatever the
    selector engine does afterwards; when the script is loaded again on a
    location without language parameter, the initial language is the one
    that was set. *)
Theorem setLang_persists (qsa : string -> list Element -> option (list nat))
    (m : Module) (w : World) (s : string) :
  String.length s = 2 ->
  isStorageEnabled m = true -> accessible (storage w) = true ->
  fst (fst (setLang qsa m w (Some s))) = mkModule true s (globalDict m) /\
  dictGet (items (storage (snd (fst (setLang qsa m w (Some s))))))
    LANG_STORAGE_KEY = Some s /\
  (forall k, k <> LANG_STORAGE_KEY ->
     dictGet (items (storage (snd (fst (setLang qsa m w (Some s)))))) k
     = dictGet (items (storage w)) k) /\
  (getLangParam (search w) = None ->
   exists w', loadModule (snd (fst (setLang qsa m w (Some s))))
              = (w', Normal (mkModule true s []))).
Proof.
  intros Hs Hf Ha. unfold setLang.
  rewrite (guard_accepts s Hs), Hf. unfold localStorage_setItem. rewrite Ha.
  cbn [fst snd].
  match goal with
  | |- context [applyLang qsa ?m1 ?w1] =>
      destruct (applyLang_storage qsa m1 w1) as [Hst _];
      destruct (applyLang_outside qsa m1 w1) as (Hse & _ & _);
      set (w2 := fst (applyLang qsa m1 w1)) in *
  end.
  cbn [withStorage storage search] in Hst, Hse.
  assert (Hget : dictGet (items (storage w2)) LANG_STORAGE_KEY = Some s).
  { rewrite Hst. cbn [items]. rewrite dictGet_dictSet.
    now rewrite String.eqb_refl. }
  split; [reflexivity|]. split; [exact Hget|]. split.
  - intros k Hk. rewrite Hst. cbn [items]. rewrite dictGet_dictSet.
    destruct (String.eqb_spec LANG_STORAGE_KEY k); [congruence | reflexivity].
  - intros Hp. unfold loadModule.
    destruct (probeStorage_spec (storage w2)) as (Hpf & Hpa & _ & Hpk).
    destruct (probeStorage (storage w2)) as [enabled st]. cbn [fst snd] in *.
    assert (Hacc : accessible (storage w2) = true) by now rewrite Hst.
    rewrite resolveInitial_value by (cbn [withStorage storage]; congruence).
    cbn [withStorage search storage navigator]. rewrite Hse, Hp.
    unfold spec_persistedChoice.
    rewrite Hpa, Hacc, (Hpk LANG_STORAGE_KEY eq_refl), Hget.
    cbn [spec_firstNonEmpty truthy]. rewrite Hpf, Hacc.
    assert (He : isEmpty s = false) by (destruct s; [discriminate | reflexivity]).
    rewrite He. cbn [negb orString]. rewrite He. eauto.
Qed.

Lemma setLang_persists_witness :
  (String.length "es" = 2 /\ isStorageEnabled shopModule = true /\
   accessible (storage shopWorld) = true /\
   getLangParam (search shopWorld) = None) /\
  dictGet
    (items (storage (snd (fst (setLang refEngine shopModule shopWorld
                                 (Some "es"))))))
    "theme" = Some "dark" /\
  exists w',
    loadModule (snd (fst (setLang refEngine shopModule shopWorld (Some "es"))))
    = (w', Normal (mkModule true "es" [])).
Proof.
  destruct (setLang_persists refEngine shopModule shopWorld "es"
              eq_refl eq_refl eq_refl) as (_ & _ & Hk & Hload).
  split; [repeat split|]. split.
  - rewrite (Hk "theme"); [reflexivity | discriminate].
  - exact (Hload eq_refl).
Defined.

(** X9.  When the storage was accessible at load time but throws at the
    time of the call, an accepted [setLang] ends with the storage's
    exception: [currentLang] is already changed, and the page and the log
    are as they were. *)
Theorem setLang_store_failure (qsa : string -> list Element -> option (list nat))
    (m : Module) (w : World) (s : string) :
  String.length s = 2 ->
  isStorageEnabled m = true -> accessible (storage w) = false ->
  setLang qsa m w (Some s)
  = (mkModule true s (globalDict m), w, Throw SecurityError).
Proof.
  intros Hs Hf Ha. unfold setLang.
  rewrite (guard_accepts s Hs), Hf. unfold localStorage_setItem.
  now rewrite Ha.
Qed.

Lemma setLang_store_failure_witness :
  (String.length "en" = 2 /\ isStorageEnabled catalanModule = true /\
   accessible (storage blockedWorld) = false) /\
  setLang refEngine catalanModule blockedWorld (Some "en")
  = (mkModule true "en" (globalDict catalanModule), blockedWorld,
     Throw SecurityError).
Proof.
  split; [repeat split|].
  exact (setLang_store_failure refEngine catalanModule blockedWorld "en"
           eq_refl eq_refl eq_refl).
Defined.

(** X10.  The page depends on the last language only: switching to [a]
    and then to [b] leaves the script's variables, the storage, the node
    values and the elements exactly as switching to [b] at once. *)
Theorem setLang_last_switch_wins
    (qsa : string -> list Element -> option (list nat))
    (m : Module) (w : World) (a b : string) :
  EngineOk qsa -> isLangCode a = true -> isLangCode b = true ->
  (isStorageEnabled m = true -> accessible (storage w) = true) ->
  snd (setLang qsa (fst (fst (setLang qsa m w (Some a))))
         (snd (fst (setLang qsa m w (Some a)))) (Some b)) = Normal tt /\
  fst (fst (setLang qsa (fst (fst (setLang qsa m w (Some a))))
              (snd (fst (setLang qsa m w (Some a)))) (Some b)))
  = fst (fst (setLang qsa m w (Some b))) /\
  storage (snd (fst (setLang qsa (fst (fst (setLang qsa m w (Some a))))
                       (snd (fst (setLang qsa m w (Some a)))) (Some b))))
  = storage (snd (fst (setLang qsa m w (Some b)))) /\
  textNodes (snd (fst (setLang qsa (fst (fst (setLang qsa m w (Some a))))
                         (snd (fst (setLang qsa m w (Some a)))) (Some b))))
  = textNodes (snd (fst (setLang qsa m w (Some b)))) /\
  elements (snd (fst (setLang qsa (fst (fst (setLang qsa m w (Some a))))
                        (snd (fst (setLang qsa m w (Some a)))) (Some b))))
  = elements (snd (fst (setLang qsa m w (Some b)))).
Proof.
  intros Hq Ha Hb Hacc.
  destruct (setLang_ok qsa m w a Hq Ha Hacc) as (Hm1 & _ & Hst1 & Ht1 & He1).
  destruct (setLang_ok qsa m w b Hq Hb Hacc) as (Hm & _ & Hst & Ht & He).
  set (m1 := fst (fst (setLang qsa m w (Some a)))) in *.
  set (w1 := snd (fst (setLang qsa m w (Some a)))) in *.
  assert (Hacc1 : isStorageEnabled m1 = true -> accessible (storage w1) = true).
  { rewrite Hm1, Hst1. cbn [isStorageEnabled]. now intros ->. }
  destruct (setLang_ok qsa m1 w1 b Hq Hb Hacc1) as (Hm2 & Hr2 & Hst2 & Ht2 & He2).
  split; [exact Hr2|].
  rewrite Hm2, Hst2, Ht2, He2, Hm, Hst, Ht, He, Hm1, Hst1, Ht1, He1.
  cbn [isStorageEnabled globalDict]. repeat split.
  - destruct (isStorageEnabled m); [|reflexivity].
    cbn [items]. now rewrite dictSet_dictSet.
  - apply textsAfter_absorb.
  - rewrite map_map. apply map_ext; intros el. apply spec_visibility_absorb.
Qed.

Lemma setLang_last_switch_wins_witness :
  (isLangCode "es" = true /\ isLangCode "ca" = true /\
   accessible (storage shopWorld) = true) /\
  textNodes
    (snd (fst (setLang refEngine
                 (fst (fst (setLang refEngine shopModule shopWorld (Some "es"))))
                 (snd (fst (setLang refEngine shopModule shopWorld (Some "es"))))
                 (Some "ca"))))
  = textNodes (snd (fst (setLang refEngine shopModule shopWorld (Some "ca")))) /\
  elements
    (snd (fst (setLang refEngine
                 (fst (fst (setLang refEngine shopModule shopWorld (Some "es"))))
                 (snd (fst (setLang refEngine shopModule shopWorld (Some "es"))))
                 (Some "ca"))))
  = elements (snd (fst (setLang refEngine shopModule shopWorld (Some "ca")))).
Proof.
  destruct (setLang_last_switch_wins refEngine shopModule shopWorld "es" "ca"
              refEngine_ok eq_refl eq_refl (fun _ => eq_refl))
    as (_ & _ & _ & Ht & He).
  split; [repeat split|]. split; [exact Ht | exact He].
Defined.

(** X11.  Whatever its argument and whatever the selector engine does,
    [setLang] never changes [isStorageEnabled] or the index, the location
    or the navigator, the number of text nodes, the [autolang] attribute
    of any element, or the value of a text node the index does not refer
    to. *)
Theorem setLang_frame (qsa : string -> list Element -> option (list nat))
    (m : Module) (w : World) (lang : JsValue) :
  isStorageEnabled (fst (fst (setLang qsa m w lang))) = isStorageEnabled m /\
  globalDict (fst (fst (setLang qsa m w lang))) = globalDict m /\
  search (snd (fst (setLang qsa m w lang))) = search w /\
  navigator (snd (fst (setLang qsa m w lang))) = navigator w /\
  List.length (textNodes (snd (fst (setLang qsa m w lang))))
  = List.length (textNodes w) /\
  map autolang (elements (snd (fst (setLang qsa m w lang))))
  = map autolang (elements w) /\
  (forall n, ~ In n (map node (globalDict m)) ->
     nth_error (textNodes (snd (fst (setLang qsa m w lang)))) n
     = nth_error (textNodes w) n).
Proof.
  assert (Happly : forall s w0,
    storage w0 = storage w0 ->
    search w0 = search w -> navigator w0 = navigator w ->
    textNodes w0 = textNodes w -> elements w0 = elements w ->
    let r := applyLang qsa (mkModule (isStorageEnabled m) s (globalDict m)) w0 in
    search (fst r) = search w /\ navigator (fst r) = navigator w /\
    List.length (textNodes (fst r)) = List.length (textNodes w) /\
    map autolang (elements (fst r)) = map autolang (elements w) /\
    (forall n, ~ In n (map node (globalDict m)) ->
       nth_error (textNodes (fst r)) n = nth_error (textNodes w) n)).
  { intros s w0 _ Hs Hn Ht He r.
    destruct (applyLang_outside qsa
                (mkModule (isStorageEnabled m) s (globalDict m)) w0)
      as (H1 & H2 & H3).
    destruct (applyLang_untouched qsa
                (mkModule (isStorageEnabled m) s (globalDict m)) w0)
      as (H4 & H5).
    subst r. rewrite H1, H2, H3, H4, Hs, Hn, Ht, He. repeat split.
    intros n Hn'. rewrite (H5 n Hn'). now rewrite Ht. }
  unfold setLang. destruct lang as [s|]; [|cbn; repeat split].
  destruct (isEmpty s || negb (String.length s =? 2)%nat); [cbn; repeat split|].
  destruct (isStorageEnabled m) eqn:Hf.
  - destruct (localStorage_setItem (storage w) LANG_STORAGE_KEY s) as [st|e];
      [|cbn; repeat split; exact Hf].
    cbn [fst snd isStorageEnabled globalDict].
    destruct (Happly s (withStorage w st) eq_refl eq_refl eq_refl eq_refl eq_refl)
      as (H1 & H2 & H3 & H4 & H5).
    repeat split; assumption.
  - cbn [fst snd isStorageEnabled globalDict].
    destruct (Happly s w eq_refl eq_refl eq_refl eq_refl eq_refl)
      as (H1 & H2 & H3 & H4 & H5).
    repeat split; assumption.
Qed.

Lemma setLang_frame_witness :
  ~ In 1 (map node (globalDict shopModule)) /\
  nth_error
    (textNodes (snd (fst (setLang refEngine shopModule shopWorld (Some "es")))))
    1
  = Some "Barcelona".
Proof.
  assert (H : ~ In 1 (map node (globalDict shopModule)))
    by (vm_compute; intros [H|[H|[]]]; discriminate).
  split; [exact H|].
  destruct (setLang_frame refEngine shopModule shopWorld (Some "es"))
    as (_ & _ & _ & _ & _ & _ & Hn).
  exact (Hn 1 H).
Defined.

(** ** Which nodes the index holds *)

Lemma positions_complete {A : Type} (p : A -> bool) (k : nat) (l : list A)
    (n : nat) (x : A) :
  nth_error l n = Some x -> p x = true -> In (k + n) (positions p k l).
Proof.
  revert k n; induction l as [|y l IH]; intros k [|n]; cbn [nth_error positions];
    try discriminate.
  - intros [= ->] ->. rewrite Nat.add_0_r. now left.
  - intros H Hp. apply in_or_app; right.
    replace (k + S n) with (S k + n) by lia. now apply IH.
Qed.

Lemma test_parse (v : string) : fst (test 0 v) = true <-> parse v <> [].
Proof.
  rewrite test_matches. split; intros H E; apply H; now apply parse_empty.
Qed.

Lemma getTextNodes_spec (values : list string) (n : nat) :
  In n (getTextNodes values) <->
  exists v, nth_error values n = Some v /\ parse v <> [].
Proof.
  unfold getTextNodes. split.
  - intros H. destruct (positions_nth _ _ _ _ H) as (v & Hv & Ht).
    rewrite Nat.sub_0_r in Hv. exists v. split; [exact Hv|].
    now apply test_parse.
  - intros (v & Hv & Hp). apply test_parse in Hp.
    exact (positions_complete (fun v => fst (test 0 v)) 0 values n v Hv Hp).
Qed.

(** X12.  Index build stores one item per text node whose dictionary is
    not empty, in document order and without repetition, and none for any
    other node. *)
Theorem index_covers (values : list string) (lg : list Event) :
  map node (fst (buildIndex values ([], lg))) = getTextNodes values /\
  NoDup (getTextNodes values) /\
  (forall n, In n (map node (fst (buildIndex values ([], lg)))) <->
             exists v, nth_error values n = Some v /\ parse v <> []).
Proof.
  pose proof (buildIndex_nodes values lg) as H.
  split; [exact H|]. split; [apply positions_NoDup|].
  intros n. rewrite H. apply getTextNodes_spec.
Qed.

Lemma index_covers_witness :
  map node (fst (buildIndex shopValues ([], []))) = [0; 2] /\
  exists v, nth_error shopValues 2 = Some v /\ parse v <> [].
Proof.
  destruct (index_covers shopValues []) as (_ & _ & H).
  split; [reflexivity|]. apply (H 2). right; left; reflexivity.
Defined.

(** ** The diagnostics of index build *)

Lemma indexNode_log (values : list string) (acc : list Item * list Event)
    (n : nat) (v : string) :
  nth_error values n = Some v -> fst (test 0 v) = true ->
  snd (indexNode values acc n) = snd acc ++ diagnosticOf v.
Proof.
  intros Hn Ht. unfold indexNode, diagnosticOf. rewrite Hn.
  apply test_parse in Ht.
  pose proof (parseNode_flag v) as Hflag.
  pose proof (parse_values v) as Hvals.
  unfold parse in *. destruct (parseNode v) as [d h]. cbn [fst snd] in *.
  destruct d as [|[k x] tl]; [congruence|].
  cbn [keys map List.length Nat.ltb Nat.leb].
  destruct h; cbn [negb snd].
  - destruct (dictGet ((k, x) :: tl) DEFAULT_LANG); [now rewrite app_nil_r|].
    exfalso. now apply (proj1 Hflag).
  - destruct (dictGet ((k, x) :: tl) DEFAULT_LANG) eqn:Ed.
    + assert (false = true) by (apply Hflag; congruence). discriminate.
    + destruct (Hvals k x (or_introl eq_refl)) as [Hk _].
      destruct (isLangCode_inv k Hk) as (a & b & -> & _). reflexivity.
Qed.

Lemma diagnosticOf_unmatched (v : string) :
  fst (test 0 v) = false -> diagnosticOf v = [].
Proof.
  intros Ht. unfold diagnosticOf.
  destruct (parse v) eqn:E; [reflexivity|].
  assert (fst (test 0 v) = true) by (apply test_parse; congruence).
  congruence.
Qed.

Lemma fold_indexNode_log (values pre l : list string)
    (acc : list Item * list Event) :
  values = pre ++ l ->
  snd (fold_left (indexNode values)
         (positions (fun v => fst (test 0 v)) (List.length pre) l) acc)
  = snd acc ++ flat_map diagnosticOf l.
Proof.
  revert pre acc; induction l as [|x l IH]; intros pre acc E.
  - cbn. now rewrite app_nil_r.
  - cbn [positions flat_map]. rewrite fold_left_app.
    assert (E' : values = (pre ++ [x]) ++ l) by now rewrite <- app_assoc.
    replace (S (List.length pre)) with (List.length (pre ++ [x]))
      by (rewrite length_app; cbn; lia).
    rewrite (IH (pre ++ [x]) _ E'). rewrite app_assoc. f_equal.
    destruct (fst (test 0 x)) eqn:Ht; cbn [fold_left].
    + apply indexNode_log; [|exact Ht]. rewrite E. apply nth_error_middle.
    + now rewrite (diagnosticOf_unmatched x Ht), app_nil_r.
Qed.

(** X13.  Index build logs exactly one diagnostic for each text node that
    has a dictionary without default-language entry, in document order,
    naming the first key of that dictionary, and nothing else. *)
Theorem buildIndex_diagnostics (values : list string) (lg : list Event) :
  snd (buildIndex values ([], lg)) = lg ++ flat_map diagnosticOf values.
Proof.
  unfold buildIndex, getTextNodes.
  exact (fold_indexNode_log values [] values ([], lg) eq_refl).
Qed.

(** ** What the page shows *)

Lemma paint_unmatched (lang v : string) : parse v = [] -> paint lang v = v.
Proof. intros E. unfold paint. now rewrite E. Qed.

Lemma Indexed_paint (values : list string) (lg : list Event) (it : Item)
    (lang nv : string) :
  Indexed values lg it -> nth_error values (node it) = Some nv ->
  newText lang (dict it) = paint lang nv.
Proof.
  intros HI Hn. rewrite (newText_spec _ _ (Indexed_values _ _ _ HI)).
  destruct HI as (nv' & Hn' & Hp & H).
  assert (nv' = nv) by congruence. subst nv'.
  unfold spec_text, paint.
  destruct H as [[Hf E]|(Hf & k & v & tl & E & Ed & _)].
  - rewrite E. destruct (dictGet (parse nv) lang); [reflexivity|].
    apply parseNode_flag in Hf.
    destruct (dictGet (parse nv) DEFAULT_LANG); [reflexivity | congruence].
  - assert (Hnone : dictGet (parse nv) DEFAULT_LANG = None).
    { destruct (dictGet (parse nv) DEFAULT_LANG) eqn:Ev; [|reflexivity].
      assert (Ht : snd (parseNode nv) = true)
        by (apply parseNode_flag; congruence).
      congruence. }
    rewrite Ed, !dictGet_dictSet, String.eqb_refl, Hnone.
    destruct (String.eqb_spec DEFAULT_LANG lang) as [<-|Hne].
    + rewrite Hnone, E. reflexivity.
    + destruct (dictGet (parse nv) lang); [reflexivity|]. now rewrite E.
Qed.

Lemma textsAfter_paint (lang : string) (values : list string) (lg : list Event)
    (vs : list string) :
  List.length vs = List.length values ->
  (forall n, ~ In n (getTextNodes values) ->
     nth_error vs n = nth_error values n) ->
  textsAfter lang (fst (buildIndex values ([], lg))) vs
  = map (paint lang) values.
Proof.
  intros Hlen Hout. apply nth_error_ext; intros n.
  rewrite nth_error_textsAfter, nth_error_map, Hlen.
  pose proof (buildIndex_nodes values lg) as Hnodes.
  destruct (buildIndex_ok values lg) as [Hnd Hok].
  pose proof (buildIndex_Indexed values lg) as HI.
  rewrite Forall_forall in HI, Hok.
  destruct (in_dec Nat.eq_dec n (map node (fst (buildIndex values ([], lg)))))
    as [Hin|Hnin].
  - apply in_map_iff in Hin. destruct Hin as (it & <- & Hit).
    rewrite (lastDict_NoDup _ _ Hnd Hit).
    destruct (Hok it Hit) as [Hlt _]. apply Nat.ltb_lt in Hlt. rewrite Hlt.
    destruct (HI it Hit) as (nv & Hn & _).
    rewrite Hn. cbn [option_map]. f_equal.
    exact (Indexed_paint values _ it lang nv (HI it Hit) Hn).
  - rewrite (lastDict_None _ _ Hnin). rewrite Hnodes in Hnin.
    rewrite (Hout n Hnin).
    destruct (nth_error values n) as [v|] eqn:Ev; [|reflexivity].
    cbn [option_map]. f_equal. symmetry. apply paint_unmatched.
    destruct (parse v) eqn:Ep; [reflexivity|].
    exfalso; apply Hnin. apply getTextNodes_spec. exists v.
    split; [exact Ev | congruence].
Qed.


Lemma onDOMContentLoaded_state
    (qsa : string -> list Element -> option (list nat)) (m : Module) (w : World) :
  globalDict m = [] ->
  fst (fst (onDOMContentLoaded qsa m w))
  = mkModule (isStorageEnabled m) (currentLang m)
      (fst (buildIndex (textNodes w) ([], log w))) /\
  storage (snd (fst (onDOMContentLoaded qsa m w))) = storage w /\
  textNodes (snd (fst (onDOMContentLoaded qsa m w)))
  = map (paint (currentLang m)) (textNodes w).
Proof.
  intros Hg. unfold onDOMContentLoaded. rewrite Hg.
  pose proof (textsAfter_paint (currentLang m) (textNodes w) (log w)
                (textNodes w) eq_refl (fun n _ => eq_refl)) as Hp.
  destruct (buildIndex (textNodes w) ([], log w)) as [gd lg].
  cbn [fst snd] in *. split; [reflexivity|].
  rewrite applyLang_textNodes.
  match goal with
  | |- storage (fst (applyLang qsa ?m1 ?w1)) = _ /\ _ =>
      destruct (applyLang_storage qsa m1 w1) as [Hs _]; rewrite Hs
  end.
  split; [reflexivity | exact Hp].
Qed.

Lemma setLang_textNodes (qsa : string -> list Element -> option (list nat))
    (m : Module) (w : World) (s : string) :
  String.length s = 2 ->
  (isStorageEnabled m = true -> accessible (storage w) = true) ->
  textNodes (snd (fst (setLang qsa m w (Some s))))
  = textsAfter s (globalDict m) (textNodes w).
Proof.
  intros Hs Hacc. unfold setLang. rewrite (guard_accepts s Hs).
  destruct (isStorageEnabled m).
  - unfold localStorage_setItem. rewrite (Hacc eq_refl). cbn [fst snd].
    now rewrite applyLang_textNodes.
  - cbn [fst snd]. now rewrite applyLang_textNodes.
Qed.





Lemma paint_matches (lang v : string) : matches (paint lang v) = [].
Proof.
  assert (Hval : forall k t, In (k, t) (parse v) -> matches t = []).
  { intros k t H. destruct (parse_values v k t H) as [_ Hc].
    destruct (isContent_inv t Hc) as [_ Hb].
    apply hasTagOpen_matches. now apply bracketFree_hasTagOpen. }
  unfold paint.
  destruct (dictGet (parse v) lang) as [t|] eqn:E1;
    [exact (Hval _ _ (dictGet_In _ _ _ E1))|].
  destruct (dictGet (parse v) DEFAULT_LANG) as [t|] eqn:E2;
    [exact (Hval _ _ (dictGet_In _ _ _ E2))|].
  destruct (parse v) as [|[k t] tl] eqn:E3.
  - now apply parse_empty.
  - apply (Hval k t). now left.
Qed.

(** X15.  The handler uses the markup up: after it has run with a
    language code no text node holds a match of the pattern any more, so
    scanning the page again finds nothing to index. *)
Theorem markup_consumed (qsa : string -> list Element -> option (list nat))
    (m : Module) (w : World) :
  globalDict m = [] ->
  isLangCode (currentLang m) = true ->
  getTextNodes (textNodes (snd (fst (onDOMContentLoaded qsa m w)))) = [] /\
  forall acc,
    buildIndex (textNodes (snd (fst (onDOMContentLoaded qsa m w)))) acc = acc.
Proof.
  intros Hg _. destruct (onDOMContentLoaded_state qsa m w Hg) as (_ & _ & Ht).
  assert (H : getTextNodes (textNodes (snd (fst (onDOMContentLoaded qsa m w))))
              = []).
  { rewrite Ht. apply positions_none. apply Forall_forall.
    intros t Hin. apply in_map_iff in Hin. destruct Hin as (v & <- & _).
    apply test_false, paint_matches. }
  split; [exact H|]. intros acc. unfold buildIndex. now rewrite H.
Qed.

Lemma markup_consumed_witness :
  (globalDict (mkModule true "en" []) = [] /\ isLangCode "en" = true) /\
  getTextNodes
    (textNodes (snd (fst (onDOMContentLoaded refEngine (mkModule true "en" [])
                            shopWorld))))
  = [].
Proof.
  split; [repeat split|].
  exact (proj1 (markup_consumed refEngine (mkModule true "en" []) shopWorld
                  eq_refl eq_refl)).
Defined.

(** ** The click listener *)

Lemma actionHere_sound (s c : string) :
  actionHere s = Some c ->
  isLangCode c = true /\
  exists q1 q2 post,
    isQuote q1 = true /\ isQuote q2 = true /\
    s = ("setLang(" ++ String q1 (c ++ String q2 (String ")" post)))%string.
Proof.
  unfold actionHere. destruct (startsWith "setLang(" s) eqn:Hp; [|discriminate].
  apply startsWith_split in Hp. cbn [String.length] in Hp.
  destruct (drop 8 s) as [|q1 [|a [|b [|q2 [|c5 post]]]]]; try discriminate.
  destruct (isQuote q1) eqn:H1; cbn [andb]; [|discriminate].
  destruct (isLower a) eqn:Ha; cbn [andb]; [|discriminate].
  destruct (isLower b) eqn:Hb; cbn [andb]; [|discriminate].
  destruct (isQuote q2) eqn:H2; cbn [andb]; [|discriminate].
  destruct (Ascii.eqb_spec c5 ")") as [->|]; [|discriminate].
  intros [= <-]. split; [cbn [isLangCode]; now rewrite Ha, Hb|].
  exists q1, q2, post. repeat split; trivial.
Qed.

Lemma actionHere_intro (q1 q2 : ascii) (c post : string) :
  isQuote q1 = true -> isQuote q2 = true -> isLangCode c = true ->
  actionHere ("setLang(" ++ String q1 (c ++ String q2 (String ")" post)))
  = Some c.
Proof.
  intros H1 H2 Hc. destruct (isLangCode_inv c Hc) as (a & b & -> & Ha & Hb).
  unfold actionHere. rewrite startsWith_append.
  change (drop 8 ("setLang("
                  ++ String q1 (String a (String b "")
                                ++ String q2 (String ")" post))))
    with (String q1 (String a (String b (String q2 (String ")" post))))).
  cbv beta iota. now rewrite H1, Ha, Hb, H2.
Qed.

Lemma matchAction_sound (action c : string) :
  matchAction action = Some c ->
  isLangCode c = true /\
  exists pre q1 q2 post,
    isQuote q1 = true /\ isQuote q2 = true /\
    action
    = (pre ++ "setLang(" ++ String q1 (c ++ String q2 (String ")" post)))%string.
Proof.
  induction action as [|x s IH]; cbn [matchAction].
  - destruct (actionHere "") eqn:E; [|discriminate].
    intros [= ->]. destruct (actionHere_sound _ _ E) as (_ & q1 & q2 & post & _ & _ & H).
    discriminate.
  - destruct (actionHere (String x s)) as [c'|] eqn:E.
    + intros [= ->].
      destruct (actionHere_sound _ _ E) as (Hc & q1 & q2 & post & H1 & H2 & Es).
      split; [exact Hc|]. exists "", q1, q2, post. auto.
    + intros H. destruct (IH H) as (Hc & pre & q1 & q2 & post & H1 & H2 & Es).
      split; [exact Hc|]. exists (String x pre), q1, q2, post.
      repeat split; trivial. cbn [append]. now rewrite Es.
Qed.

Lemma matchAction_front (q1 q2 : ascii) (c post : string) :
  isQuote q1 = true -> isQuote q2 = true -> isLangCode c = true ->
  matchAction ("setLang(" ++ String q1 (c ++ String q2 (String ")" post)))
  = Some c.
Proof.
  intros H1 H2 Hc. pose proof (actionHere_intro q1 q2 c post H1 H2 Hc) as H.
  change ("setLang(" ++ String q1 (c ++ String q2 (String ")" post)))%string
    with (String "s" ("etLang("
                      ++ String q1 (c ++ String q2 (String ")" post)))) in *.
  cbn [matchAction]. now rewrite H.
Qed.

Lemma matchAction_complete (pre : string) (q1 q2 : ascii) (c post : string) :
  isQuote q1 = true -> isQuote q2 = true -> isLangCode c = true ->
  exists c',
    matchAction
      (pre ++ "setLang(" ++ String q1 (c ++ String q2 (String ")" post)))
    = Some c'.
Proof.
  intros H1 H2 Hc. induction pre as [|x pre IH].
  - exists c. exact (matchAction_front q1 q2 c post H1 H2 Hc).
  - change ((String x pre ++ "setLang("
             ++ String q1 (c ++ String q2 (String ")" post)))%string)
      with (String x (pre ++ "setLang("
                      ++ String q1 (c ++ String q2 (String ")" post)))).
    cbn [matchAction]. destruct (actionHere _) as [c'|]; [eauto | exact IH].
Qed.

(** X16.  The pattern of the click listener finds a language in an action
    exactly when the action holds [setLang(], a quote, two lowercase
    letters, a quote and a closing parenthesis, anywhere in its text; what
    it finds is always two lowercase letters; the two quotes need not be of
    the same kind. *)
Theorem matchAction_spec :
  (forall action c,
     matchAction action = Some c ->
     isLangCode c = true /\
     exists pre q1 q2 post,
       isQuote q1 = true /\ isQuote q2 = true /\
       action
       = (pre ++ "setLang("
          ++ String q1 (c ++ String q2 (String ")" post)))%string) /\
  (forall q1 q2 c post,
     isQuote q1 = true -> isQuote q2 = true -> isLangCode c = true ->
     matchAction ("setLang(" ++ String q1 (c ++ String q2 (String ")" post)))
     = Some c) /\
  (forall pre q1 q2 c post,
     isQuote q1 = true -> isQuote q2 = true -> isLangCode c = true ->
     matchAction
       (pre ++ "setLang(" ++ String q1 (c ++ String q2 (String ")" post)))
     <> None).
Proof.
  split; [exact matchAction_sound|]. split; [exact matchAction_front|].
  intros pre q1 q2 c post H1 H2 Hc.
  destruct (matchAction_complete pre q1 q2 c post H1 H2 Hc) as (c' & ->).
  discriminate.
Qed.

Lemma matchAction_spec_witness :
  (matchAction "javascript:setLang('en');" = Some "en" /\
   isLangCode "en" = true) /\
  matchAction ("setLang(" ++ String "'" ("es" ++ String (ascii_of_nat 34)
                                                  (String ")" "; return false")))
  = Some "es" /\
  matchAction ("go: " ++ "setLang(" ++ String "'" ("fr" ++ String "'"
                                                     (String ")" "")))
  <> None.
Proof.
  destruct matchAction_spec as (Hs & Hf & Hc).
  split; [|split].
  - split; [reflexivity|].
    exact (proj1 (Hs "javascript:setLang('en');" "en" eq_refl)).
  - exact (Hf "'"%char (ascii_of_nat 34) "es" "; return false"
             eq_refl eq_refl eq_refl).
  - exact (Hc "go: " "'"%char "'"%char "fr" "" eq_refl eq_refl eq_refl).
Defined.

Lemma textPass_log_any (lang : string) (gd : list Item) (w : World) :
  exists evs,
    log (fold_left (updateItem lang) gd w) = log w ++ evs /\
    forall msg arg, ~ In (Warn msg arg) evs.
Proof.
  revert w; induction gd as [|it gd IH]; intros w; cbn [fold_left].
  - exists []. rewrite app_nil_r. split; [reflexivity | intros ? ? []].
  - destruct (IH (updateItem lang w it)) as (evs & E & Hn). rewrite E.
    unfold updateItem.
    destruct (nth_error (textNodes w) (node it)) as [cur|]; [|eauto].
    destruct (String.eqb cur (newText lang (dict it))); [eauto|].
    cbn [setNodeValue log]. rewrite <- app_assoc.
    eexists. split; [reflexivity|].
    intros msg arg [H|H]; [discriminate | exact (Hn msg arg H)].
Qed.

Lemma applyLang_log_any (qsa : string -> list Element -> option (list nat))
    (m : Module) (w : World) :
  exists evs,
    log (fst (applyLang qsa m w)) = log w ++ evs /\
    forall msg arg, ~ In (Warn msg arg) evs.
Proof.
  unfold applyLang.
  destruct (textPass_log_any (currentLang m) (globalDict m) w) as (e1 & E1 & H1).
  set (w1 := fold_left (updateItem (currentLang m)) (globalDict m) w) in *.
  assert (Hd : forall v idxs msg arg,
             ~ In (Warn msg arg) (map (fun i => SetDisplay i v) idxs)).
  { intros v idxs msg arg H. apply in_map_iff in H.
    destruct H as (i & Hi & _). discriminate. }
  destruct (qsa "*[autolang]" (elements w1)) as [marked|]; cbn [fst]; [|eauto].
  destruct (displayPass_frame "none" marked w1) as (_ & _ & _ & _ & E2).
  set (w2 := fold_left (setDisplay "none") marked w1) in *.
  destruct (qsa (autolangSelector (currentLang m)) (elements w2)) as [shown|];
    cbn [fst].
  - destruct (displayPass_frame "" shown w2) as (_ & _ & _ & _ & E3).
    rewrite E3, E2, E1, <- !app_assoc. eexists. split; [reflexivity|].
    intros msg arg H. apply in_app_or in H. destruct H as [H|H];
      [exact (H1 _ _ H)|].
    apply in_app_or in H. destruct H as [H|H]; exact (Hd _ _ _ _ H).
  - rewrite E2, E1, <- !app_assoc. eexists. split; [reflexivity|].
    intros msg arg H. apply in_app_or in H. destruct H as [H|H];
      [exact (H1 _ _ H) | exact (Hd _ _ _ _ H)].
Qed.

Lemma setLang_accepted (qsa : string -> list Element -> option (list nat))
    (m : Module) (w : World) (s : string) :
  String.length s = 2 ->
  fst (fst (setLang qsa m w (Some s)))
  = mkModule (isStorageEnabled m) s (globalDict m) /\
  exists evs,
    log (snd (fst (setLang qsa m w (Some s)))) = log w ++ evs /\
    forall msg arg, ~ In (Warn msg arg) evs.
Proof.
  intros Hs. unfold setLang. rewrite (guard_accepts s Hs).
  destruct (isStorageEnabled m).
  - destruct (localStorage_setItem (storage w) LANG_STORAGE_KEY s) as [st|e];
      cbn [fst snd].
    + split; [reflexivity|].
      exact (applyLang_log_any qsa _ (withStorage w st)).
    + split; [reflexivity|]. exists []. rewrite app_nil_r.
      split; [reflexivity | intros ? ? []].
  - cbn [fst snd]. split; [reflexivity|]. apply applyLang_log_any.
Qed.

(** X17.  A click changes the active language only to two lowercase
    letters; it never reaches the rejecting branch of [setLang], so it
    never logs that diagnostic; [preventDefault] is called exactly when the
    nearest [whenClick] action holds a recognised call; and when it is not
    called the script's variables, the storage, the node values and the
    elements are as before and the listener returns normally. *)
Theorem onClick_outcome (qsa : string -> list Element -> option (list nat))
    (m : Module) (w : World) (closest : option string) :
  (currentLang (fst (fst (fst (onClick qsa m w closest)))) = currentLang m \/
   isLangCode (currentLang (fst (fst (fst (onClick qsa m w closest))))) = true)
  /\
  (forall lang,
     ~ In (invalidLangWarning lang)
          (skipn (List.length (log w))
             (log (snd (fst (fst (onClick qsa m w closest))))))) /\
  (snd (onClick qsa m w closest) = true <->
   exists action c, closest = Some action /\ matchAction action = Some c) /\
  (snd (onClick qsa m w closest) = false ->
   fst (fst (fst (onClick qsa m w closest))) = m /\
   snd (fst (onClick qsa m w closest)) = Normal tt /\
   storage (snd (fst (fst (onClick qsa m w closest)))) = storage w /\
   textNodes (snd (fst (fst (onClick qsa m w closest)))) = textNodes w /\
   elements (snd (fst (fst (onClick qsa m w closest)))) = elements w).
Proof.
  assert (Hskip : forall evs,
    skipn (List.length (log w)) (log w ++ evs) = evs).
  { intros evs. now rewrite skipn_app, skipn_all, Nat.sub_diag. }
  unfold onClick. destruct closest as [action|].
  - destruct (matchAction action) as [c|] eqn:E.
    + destruct (matchAction_sound action c E) as (Hc & _).
      assert (He : isEmpty c = false).
      { destruct (isLangCode_inv c Hc) as (a & b & -> & _). reflexivity. }
      rewrite He. cbn [fst snd].
      destruct (setLang_accepted qsa m w c (isLangCode_length c Hc))
        as (Hm & evs & Hl & Hn).
      rewrite Hm, Hl, Hskip. cbn [currentLang].
      split; [now right|]. split; [intros lang; apply Hn|].
      split; [|discriminate]. split; [eauto | reflexivity].
    + cbn [fst snd emit log storage textNodes elements].
      rewrite Hskip. split; [now left|]. split.
      * intros lang [H|[]]. discriminate.
      * split; [|auto]. split; [discriminate|].
        intros (a' & c & [= <-] & Hc). congruence.
  - cbn [fst snd]. rewrite skipn_all.
    split; [now left|]. split; [intros lang []|].
    split; [|auto]. split; [discriminate|].
    intros (a' & c & H & _). discriminate.
Qed.

Lemma onClick_outcome_witness :
  snd (onClick refEngine shopModule shopWorld (Some "setLang('EN')")) = false /\
  fst (fst (fst (onClick refEngine shopModule shopWorld (Some "setLang('EN')"))))
  = shopModule /\
  textNodes
    (snd (fst (fst (onClick refEngine shopModule shopWorld
                      (Some "setLang('EN')")))))
  = textNodes shopWorld /\
  (exists action c,
     Some "setLang('ca')" = Some action /\ matchAction action = Some c).
Proof.
  destruct (onClick_outcome refEngine shopModule shopWorld
              (Some "setLang('EN')")) as (_ & _ & _ & Hno).
  destruct (onClick_outcome refEngine shopModule shopWorld
              (Some "setLang('ca')")) as (_ & _ & Hyes & _).
  destruct (Hno eq_refl) as (Hm & _ & _ & Ht & _).
  split; [reflexivity|]. split; [exact Hm|]. split; [exact Ht|].
  exact (proj1 Hyes eq_refl).
Defined.
